(** * netmerge: merging IPv4 prefixes (groovy-sky/nlap, netmerge/netmerge.go)

    A shallow embedding of [netmerge.go] and of the parts of Go's standard
    library it calls ([net.ParseCIDR] with [netip.ParseAddr] behind it,
    [net.IP.To4], [net.IPMask.Size], [binary.BigEndian.Uint32] and the
    [fmt.Sprintf] verbs the file uses), followed by the properties of the
    merge that the specification states. The library functions follow the
    sources of recent Go releases, 1.22 and later ([net/ip.go],
    [net/parse.go], [net/netip/netip.go], [encoding/binary/binary.go]),
    statement by statement.

    Conventions.
    - A Go [byte] is an [ascii]; a Go [string] is a [string] (a sequence of
      bytes); a [[]byte] ([net.IP], [net.IPMask]) is a [list byte], the nil
      slice being [[]].
    - A [uint32] is a [Z] in [0, 2^32); every operation that can leave the
      range is wrapped explicitly with [u32].
    - A Go call either returns or panics: [outcome]. A returned Go [error]
      is an [option error], [None] being [nil]. *)

From Stdlib Require Import ZArith List String Ascii Bool Lia Permutation.
Import ListNotations.
Open Scope Z_scope.

(** ** Bytes, outcomes, errors *)

Definition byte := ascii.

Definition byte_to_Z (b : byte) : Z := Z.of_N (N_of_ascii b).

(** The conversion [byte(x)] / [uint8(x)] of an integer: the low 8 bits. *)
Definition byte_of_Z (z : Z) : byte := ascii_of_N (Z.to_N (z mod 256)).

Definition zero_byte : byte := byte_of_Z 0.

Definition u32 (z : Z) : Z := z mod 2 ^ 32.

Definition is_uint32 (z : Z) : Prop := 0 <= z < 2 ^ 32.

Inductive outcome (A : Type) : Type :=
| Returned (a : A)
| Panicked.
Arguments Returned {A} a.
Arguments Panicked {A}.

(** The two error values the package can hand back: [*net.ParseError]
    (built by [net.ParseCIDR]) and the value of [fmt.Errorf]. *)
Inductive error : Type :=
| ParseError (Type_ Text : string)
| Errorf (msg : string).

(** [s[i]] on a string; every use below is in range, where Go would
    otherwise panic. *)
Definition index_byte (s : string) (i : nat) : byte :=
  match String.get i s with
  | Some c => c
  | None => zero_byte
  end.

(** [l[i] = v] on a slice, [i] in range. *)
Fixpoint list_set {A : Type} (l : list A) (i : nat) (v : A) : list A :=
  match l, i with
  | [], _ => []
  | _ :: t, O => v :: t
  | h :: t, S i' => h :: list_set t i' v
  end.

(** ** package fmt: the verbs used by netmerge.go *)
Module Fmt.

Definition digit (d : Z) : byte := byte_of_Z (48 + d).

(** Decimal digits of a non-negative integer, most significant first.
    Twenty rounds cover every 64-bit value. *)
Fixpoint fmtUint (fuel : nat) (n : Z) (acc : string) : string :=
  match fuel with
  | O => acc
  | S f =>
      let acc' := String (digit (n mod 10)) acc in
      if n <? 10 then acc' else fmtUint f (n / 10) acc'
  end.

(** [%d] *)
Definition Sprintf_d (n : Z) : string :=
  if n <? 0 then String "-" (fmtUint 20 (- n) EmptyString)
  else fmtUint 20 n EmptyString.

Definition bit_char (n : Z) (k : nat) : byte :=
  if Z.testbit n (31 - Z.of_nat k) then "1"%char else "0"%char.

(** [%032b] of a [uint32]: its 32 bits, most significant first. *)
Definition Sprintf_032b (n : Z) : string :=
  string_of_list_ascii (map (bit_char n) (seq 0 32)).

(** Lower-case hexadecimal without leading zeros ([strconv.AppendUint]
    base 16), used by the textual form of an IPv6 address. *)
Definition hex_digit (d : Z) : byte :=
  if d <? 10 then byte_of_Z (48 + d) else byte_of_Z (87 + d).

Fixpoint fmtHex (fuel : nat) (n : Z) (acc : string) : string :=
  match fuel with
  | O => acc
  | S f =>
      let acc' := String (hex_digit (n mod 16)) acc in
      if n <? 16 then acc' else fmtHex f (n / 16) acc'
  end.

End Fmt.

(** ** package net/netip: ParseAddr *)
Module Netip.

Definition isDigit (c : byte) : bool :=
  (48 <=? byte_to_Z c) && (byte_to_Z c <=? 57).

Definition isDot (c : byte) : bool := Ascii.eqb c "."%char.
Definition isColon (c : byte) : bool := Ascii.eqb c ":"%char.

Record v4state : Type := mkV4 {
  val : Z;
  pos : nat;
  digLen : Z;
  fields : list byte
}.

(** The loop of [parseIPv4Fields] over [s = in[off:end]]. [prev] is
    [s[i-1]], or [None] when [i = 0]; [i = len(s)-1] is "nothing follows".
    [None] is the returned [parseAddrError]. *)
Fixpoint parseIPv4Fields_loop (s : string) (prev : option byte) (st : v4state)
  : option v4state :=
  match s with
  | EmptyString => Some st
  | String c rest =>
      if isDigit c then
        if (digLen st =? 1) && (val st =? 0) then None
        else
          let val' := val st * 10 + byte_to_Z c - 48 in
          if val' >? 255 then None
          else parseIPv4Fields_loop rest (Some c)
                 (mkV4 val' (pos st) (digLen st + 1) (fields st))
      else if isDot c then
        if match prev with None => true | Some p => isDot p end
           || match rest with EmptyString => true | _ => false end
        then None
        else if Nat.eqb (pos st) 3 then None
        else parseIPv4Fields_loop rest (Some c)
               (mkV4 0 (S (pos st)) 0
                  (list_set (fields st) (pos st) (byte_of_Z (val st))))
      else None
  end.

Definition parseIPv4Fields (s : string) (fields0 : list byte)
  : option (list byte) :=
  match parseIPv4Fields_loop s None (mkV4 0 0 0 fields0) with
  | None => None
  | Some st =>
      if Nat.ltb (pos st) 3 then None
      else Some (list_set (fields st) 3 (byte_of_Z (val st)))
  end.

(** An [Addr]: 4 bytes of an IPv4 address, or 16 bytes and a zone. *)
Inductive Addr : Type :=
| Addr4 (a : list byte)
| Addr6 (a : list byte) (zone : string).

Definition parseIPv4 (s : string) : option Addr :=
  match parseIPv4Fields s (repeat zero_byte 4) with
  | None => None
  | Some f => Some (Addr4 f)
  end.

Definition hexval (c : byte) : option Z :=
  let n := byte_to_Z c in
  if (48 <=? n) && (n <=? 57) then Some (n - 48)
  else if (97 <=? n) && (n <=? 102) then Some (n - 97 + 10)
  else if (65 <=? n) && (n <=? 70) then Some (n - 65 + 10)
  else None.

(** The inner loop of [parseIPv6] reading one hexadecimal group:
    [(acc, off, s[off:])], or [None] for the two errors it can raise. *)
Fixpoint hexGroup (s : string) (off : nat) (acc : Z)
  : option (Z * nat * string) :=
  match s with
  | EmptyString => Some (acc, off, s)
  | String c rest =>
      match hexval c with
      | None => Some (acc, off, s)
      | Some d =>
          let acc' := u32 (acc * 16 + d) in
          if Nat.ltb 3 off then None
          else if acc' >? 65535 then None
          else hexGroup rest (S off) acc'
      end
  end.

(** What follows the main loop of [parseIPv6]: the whole string must be
    used, and a short address is completed at the ellipsis. [done] is
    [ip[0:i]]. *)
Definition parseIPv6_finish (done : list byte) (ellipsis : option nat)
  (s : string) : option (list byte) :=
  match s with
  | String _ _ => None
  | EmptyString =>
      let i := List.length done in
      if Nat.ltb i 16 then
        match ellipsis with
        | None => None
        | Some e =>
            Some (firstn e done ++ repeat zero_byte (16 - i)%nat ++ skipn e done)
        end
      else
        match ellipsis with
        | Some _ => None
        | None => Some done
        end
  end.

(** The main loop of [parseIPv6], [for i < 16]. Every round that goes
    round again has written two bytes, so [k] counts the rounds left:
    [i = 16 - 2k = length done]. *)
Fixpoint parseIPv6_loop (k : nat) (done : list byte) (ellipsis : option nat)
  (s : string) : option (list byte) :=
  match k with
  | O => parseIPv6_finish done ellipsis s
  | S k' =>
      match hexGroup s 0 0 with
      | None => None
      | Some (acc, off, rest) =>
          if Nat.eqb off 0 then None
          else
            let i := List.length done in
            if match rest with String c _ => isDot c | EmptyString => false end
            then
              if match ellipsis with None => negb (Nat.eqb i 12) | _ => false end
              then None
              else if Nat.ltb 16 (i + 4)%nat then None
              else
                match parseIPv4Fields s (repeat zero_byte 4) with
                | None => None
                | Some f => parseIPv6_finish (done ++ f) ellipsis EmptyString
                end
            else
              let done' :=
                done ++ [byte_of_Z (Z.shiftr acc 8); byte_of_Z acc] in
              match rest with
              | EmptyString => parseIPv6_finish done' ellipsis EmptyString
              | String c rest1 =>
                  if negb (isColon c) then None
                  else
                    match rest1 with
                    | EmptyString => None
                    | String c1 rest2 =>
                        if isColon c1 then
                          match ellipsis with
                          | Some _ => None
                          | None =>
                              match rest2 with
                              | EmptyString =>
                                  parseIPv6_finish done'
                                    (Some (List.length done')) EmptyString
                              | _ =>
                                  parseIPv6_loop k' done'
                                    (Some (List.length done')) rest2
                              end
                          end
                        else parseIPv6_loop k' done' ellipsis rest1
                    end
              end
      end
  end.

(** [s[:i], s[i+1:]] at the first byte [sep], when there is one. *)
Fixpoint cut_byte (sep : byte) (s : string) : option (string * string) :=
  match s with
  | EmptyString => None
  | String c rest =>
      if Ascii.eqb c sep then Some (EmptyString, rest)
      else
        match cut_byte sep rest with
        | None => None
        | Some (a, b) => Some (String c a, b)
        end
  end.

Definition parseIPv6 (input : string) : option Addr :=
  let split :=
    match cut_byte "%"%char input with
    | Some (s, zone) =>
        match zone with
        | EmptyString => None
        | _ => Some (s, zone)
        end
    | None => Some (input, EmptyString)
    end in
  match split with
  | None => None
  | Some (s, zone) =>
      match s with
      | String ":" (String ":" EmptyString) =>
          Some (Addr6 (repeat zero_byte 16) zone)
      | String ":" (String ":" s') =>
          match parseIPv6_loop 8 [] (Some O) s' with
          | None => None
          | Some ip => Some (Addr6 ip zone)
          end
      | _ =>
          match parseIPv6_loop 8 [] None s with
          | None => None
          | Some ip => Some (Addr6 ip zone)
          end
      end
  end.

(** [ParseAddr]: the first of ['.'], [':'], ['%'] decides the form. *)
Fixpoint ParseAddr_scan (whole s : string) : option Addr :=
  match s with
  | EmptyString => None
  | String c rest =>
      if isDot c then parseIPv4 whole
      else if isColon c then parseIPv6 whole
      else if Ascii.eqb c "%"%char then None
      else ParseAddr_scan whole rest
  end.

Definition ParseAddr (s : string) : option Addr := ParseAddr_scan s s.

Definition Zone (a : Addr) : string :=
  match a with
  | Addr4 _ => EmptyString
  | Addr6 _ z => z
  end.

Definition BitLen (a : Addr) : Z :=
  match a with
  | Addr4 _ => 32
  | Addr6 _ _ => 128
  end.

Definition v4InV6Prefix : list byte :=
  repeat zero_byte 10 ++ [byte_of_Z 255; byte_of_Z 255].

Definition As16 (a : Addr) : list byte :=
  match a with
  | Addr4 f => v4InV6Prefix ++ f
  | Addr6 ip _ => ip
  end.

End Netip.

(** ** package encoding/binary *)
Module Binary.

(** [binary.BigEndian.Uint32(b)]: it starts with [_ = b[3]], which panics
    on a slice shorter than 4 (the nil slice included). *)
Definition Uint32 (b : list byte) : outcome Z :=
  match b with
  | b0 :: b1 :: b2 :: b3 :: _ =>
      Returned
        (Z.lor (Z.lor (Z.lor (byte_to_Z b3) (Z.shiftl (byte_to_Z b2) 8))
                  (Z.shiftl (byte_to_Z b1) 16))
           (Z.shiftl (byte_to_Z b0) 24))
  | _ => Panicked
  end.

End Binary.

(** ** package net: IP, IPMask, IPNet, ParseCIDR *)
Module Net.

Definition IP := list byte.
Definition IPMask := list byte.

Record IPNet : Type := mkIPNet {
  IPNet_IP : IP;
  Mask : IPMask
}.

Definition byte_eqb (a b : byte) : bool := Ascii.eqb a b.

Fixpoint bytes_eqb (a b : list byte) : bool :=
  match a, b with
  | [], [] => true
  | x :: a', y :: b' => byte_eqb x y && bytes_eqb a' b'
  | _, _ => false
  end.

Definition isZeros (p : list byte) : bool :=
  forallb (fun b => byte_to_Z b =? 0) p.

Definition allFF (p : list byte) : bool :=
  forallb (fun b => byte_to_Z b =? 255) p.

(** [net.IPv4(a, b, c, d)]: the 16-byte form. *)
Definition IPv4 (a b c d : byte) : IP :=
  Netip.v4InV6Prefix ++ [a; b; c; d].

(** [ip.To4()]; [[]] is the nil result. *)
Definition To4 (ip : IP) : IP :=
  if Nat.eqb (List.length ip) 4 then ip
  else if Nat.eqb (List.length ip) 16
          && isZeros (firstn 10 ip)
          && (byte_to_Z (nth 10 ip zero_byte) =? 255)
          && (byte_to_Z (nth 11 ip zero_byte) =? 255)
  then firstn 4 (skipn 12 ip)
  else [].

Fixpoint CIDRMask_loop (l : nat) (n : Z) : list byte :=
  match l with
  | O => []
  | S l' =>
      if n >=? 8 then byte_of_Z 255 :: CIDRMask_loop l' (n - 8)
      else byte_of_Z (255 - Z.shiftr 255 n) :: CIDRMask_loop l' 0
  end.

Definition CIDRMask (ones bits : Z) : IPMask :=
  if negb (bits =? 32) && negb (bits =? 128) then []
  else if (ones <? 0) || (ones >? bits) then []
  else CIDRMask_loop (Z.to_nat (bits / 8)) ones.

Definition byte_and (a b : byte) : byte :=
  byte_of_Z (Z.land (byte_to_Z a) (byte_to_Z b)).

Fixpoint and_bytes (ip mask : list byte) : list byte :=
  match ip, mask with
  | x :: ip', m :: mask' => byte_and x m :: and_bytes ip' mask'
  | _, _ => []
  end.

(** [ip.Mask(mask)] *)
Definition IP_Mask (ip : IP) (mask : IPMask) : IP :=
  let mask1 :=
    if Nat.eqb (List.length mask) 16 && Nat.eqb (List.length ip) 4
       && allFF (firstn 12 mask)
    then skipn 12 mask else mask in
  let ip1 :=
    if Nat.eqb (List.length mask1) 4 && Nat.eqb (List.length ip) 16
       && bytes_eqb (firstn 12 ip) Netip.v4InV6Prefix
    then skipn 12 ip else ip in
  if negb (Nat.eqb (List.length ip1) (List.length mask1)) then []
  else and_bytes ip1 mask1.

(** The inner loop of [simpleMaskLength]: [for v&0x80 != 0 { n++; v <<= 1 }]
    on a byte, which stops within 8 rounds. *)
Fixpoint leadingOnes (fuel : nat) (v n : Z) : Z * Z :=
  match fuel with
  | O => (n, v)
  | S f =>
      if Z.land v 128 =? 0 then (n, v)
      else leadingOnes f ((v * 2) mod 256) (n + 1)
  end.

Fixpoint simpleMaskLength_loop (mask : list byte) (n : Z) : Z :=
  match mask with
  | [] => n
  | v :: rest =>
      if byte_to_Z v =? 255 then simpleMaskLength_loop rest (n + 8)
      else
        let '(n', v') := leadingOnes 8 (byte_to_Z v) n in
        if negb (v' =? 0) then -1
        else if isZeros rest then n' else -1
  end.

Definition simpleMaskLength (mask : IPMask) : Z :=
  simpleMaskLength_loop mask 0.

(** [m.Size()]: [(ones, bits)]. *)
Definition Size (m : IPMask) : Z * Z :=
  let ones := simpleMaskLength m in
  if ones =? -1 then (0, 0) else (ones, Z.of_nat (List.length m) * 8).

Definition big : Z := 16777215.

(** [dtoi]: the decimal number at the start of [s]: [(n, i, ok)]. *)
Fixpoint dtoi_loop (s : string) (n : Z) (i : nat) : Z * nat * bool :=
  match s with
  | EmptyString => (n, i, negb (Nat.eqb i 0))
  | String c rest =>
      if Netip.isDigit c then
        let n' := n * 10 + (byte_to_Z c - 48) in
        if n' >=? big then (big, i, false)
        else dtoi_loop rest n' (S i)
      else if Nat.eqb i 0 then (0, O, false) else (n, i, true)
  end.

Definition dtoi (s : string) : Z * nat * bool := dtoi_loop s 0 O.

Definition CIDR_error (s : string) : error :=
  ParseError "CIDR address"%string s.

(** [net.ParseCIDR(s)]: the address as written (16 bytes) and the network,
    or a [*ParseError]. *)
Definition ParseCIDR (s : string) : (IP * IPNet) + error :=
  match Netip.cut_byte "/"%char s with
  | None => inr (CIDR_error s)
  | Some (addr, mask) =>
      match Netip.ParseAddr addr with
      | None => inr (CIDR_error s)
      | Some ipAddr =>
          match Netip.Zone ipAddr with
          | String _ _ => inr (CIDR_error s)
          | EmptyString =>
              let '(n, i, ok) := dtoi mask in
              if negb ok || negb (Nat.eqb i (String.length mask))
                 || (n <? 0) || (n >? Netip.BitLen ipAddr)
              then inr (CIDR_error s)
              else
                let m := CIDRMask n (Netip.BitLen ipAddr) in
                let addr16 := Netip.As16 ipAddr in
                inl (addr16, mkIPNet (IP_Mask addr16 m) m)
          end
      end
  end.

(** The textual form of an IPv6 address ([netip.Addr.String], 16 bytes
    that are not an IPv4-mapped address). *)
Definition v6u16 (ip : list byte) (i : nat) : Z :=
  byte_to_Z (nth (2 * i) ip zero_byte) * 256
  + byte_to_Z (nth (2 * i + 1) ip zero_byte).

Fixpoint zeroRunEnd (ip : list byte) (fuel j : nat) : nat :=
  match fuel with
  | O => j
  | S f =>
      if Nat.ltb j 8 && (v6u16 ip j =? 0) then zeroRunEnd ip f (S j) else j
  end.

Definition longestZeroRun (ip : list byte) : nat * nat :=
  fold_left
    (fun (z : nat * nat) (i : nat) =>
       let j := zeroRunEnd ip 8 i in
       let l := (j - i)%nat in
       if Nat.leb 2 l && Nat.ltb (snd z - fst z) l then (i, j) else z)
    (seq 0 8) (255%nat, 255%nat).

Fixpoint string6_loop (ip : list byte) (zs ze : nat) (fuel i : nat)
  : string :=
  match fuel with
  | O => EmptyString
  | S f =>
      if Nat.leb 8 i then EmptyString
      else if Nat.eqb i zs then
        String ":" (String ":"
          (if Nat.leb 8 ze then EmptyString
           else String.append (Fmt.fmtHex 4 (v6u16 ip ze) EmptyString)
                  (string6_loop ip zs ze f (S ze))))
      else
        String.append
          (if Nat.ltb 0 i then ":"%string else EmptyString)
          (String.append (Fmt.fmtHex 4 (v6u16 ip i) EmptyString)
             (string6_loop ip zs ze f (S i)))
  end.

Definition string6 (ip : list byte) : string :=
  let '(zs, ze) := longestZeroRun ip in string6_loop ip zs ze 9 0.

Definition string4 (p4 : list byte) : string :=
  String.append (Fmt.Sprintf_d (byte_to_Z (nth 0 p4 zero_byte)))
    (String "."
       (String.append (Fmt.Sprintf_d (byte_to_Z (nth 1 p4 zero_byte)))
          (String "."
             (String.append (Fmt.Sprintf_d (byte_to_Z (nth 2 p4 zero_byte)))
                (String "."
                   (Fmt.Sprintf_d (byte_to_Z (nth 3 p4 zero_byte)))))))).

Definition hexString (b : list byte) : string :=
  fold_right
    (fun x acc =>
       String (Fmt.hex_digit (byte_to_Z x / 16))
         (String (Fmt.hex_digit (byte_to_Z x mod 16)) acc))
    EmptyString b.

(** [ip.String()], which [%s] prints for a [net.IP]. *)
Definition IP_String (ip : IP) : string :=
  if Nat.eqb (List.length ip) 0 then "<nil>"%string
  else if negb (Nat.eqb (List.length ip) 4)
          && negb (Nat.eqb (List.length ip) 16)
  then String "?" (hexString ip)
  else if Nat.eqb (List.length (To4 ip)) 4 then string4 (To4 ip)
  else string6 ip.

End Net.

(** [strings.Contains(s, substr)] *)
Definition strings_Contains (s substr : string) : bool :=
  match String.index 0 substr s with
  | Some _ => true
  | None => false
  end.

(** ** package netmerge *)
Module Netmerge.

Import Net.

Record IPv4Vector : Type := mkVector {
  FirstIP : Z;
  LastIP : Z;
  CIDR : IPNet
}.

(** [IPv4Vector{}] *)
Definition zeroVector : IPv4Vector := mkVector 0 0 (mkIPNet [] []).

(** [cidrToVector] (netmerge.go, lines 18-33). *)
Definition cidrToVector (cidr : string)
  : outcome (IPv4Vector * option error) :=
  match ParseCIDR cidr with
  | inr err => Returned (zeroVector, Some err)
  | inl (ip, ipNet) =>
      match Binary.Uint32 (To4 ip) with
      | Panicked => Panicked
      | Returned ipUint =>
          match Binary.Uint32 (Mask ipNet) with
          | Panicked => Panicked
          | Returned mask =>
              let lastIP :=
                Z.lor (Z.land ipUint mask) (Z.lxor mask 4294967295) in
              Returned (mkVector ipUint lastIP ipNet, None)
          end
      end
  end.

(** [int32(x)] of a [uint32]: the same 32 bits read as signed. *)
Definition int32_of_uint32 (x : Z) : Z :=
  if x <? 2 ^ 31 then x else x - 2 ^ 32.

(** [float64(i)] of a 32-bit integer is exact: the float is the integer. *)
Definition float64_of_int (i : Z) : Z := i.

(** [uint32(f)] of an integral float. In range the result is [f]; out of
    range Go leaves it to the implementation, and the gc compiler on
    64-bit targets converts to [int64] and keeps the low 32 bits. *)
Definition uint32_of_float64 (f : Z) : Z := f mod 2 ^ 32.

(** [distance] (lines 71-86). *)
Definition distance (v1 v2 : IPv4Vector) : Z :=
  let minIP :=
    if FirstIP v1 >? FirstIP v2 then u32 (FirstIP v1 - FirstIP v2)
    else u32 (FirstIP v2 - FirstIP v1) in
  let maxIP :=
    if LastIP v1 >? LastIP v2 then u32 (LastIP v1 - LastIP v2)
    else u32 (LastIP v2 - LastIP v1) in
  u32 (uint32_of_float64 (float64_of_int (int32_of_uint32 minIP))
       + uint32_of_float64 (float64_of_int (int32_of_uint32 maxIP))).

(** The variables of [closestVectors] that its loops update;
    [closestDist = None] is [math.Inf(1)]. *)
Record scan : Type := mkScan {
  closest1 : IPv4Vector;
  closest2 : IPv4Vector;
  closestDist : option Z;
  firstIndex : nat;
  lastIndex : nat
}.

Definition scan0 : scan := mkScan zeroVector zeroVector None O O.

(** [dist < closestDist] on [float64]. *)
Definition lt_dist (dist : Z) (c : option Z) : bool :=
  match c with
  | None => true
  | Some d => dist <? d
  end.

(** The body of the inner loop (lines 47-60). *)
Definition scan_step (l : list IPv4Vector) (i j : nat) (st : scan) : scan :=
  let dist :=
    float64_of_int (distance (nth i l zeroVector) (nth j l zeroVector)) in
  if lt_dist dist (closestDist st) then
    mkScan (nth i l zeroVector) (nth j l zeroVector) (Some dist)
      (if Nat.ltb j i then j else i) (if Nat.ltb j i then i else j)
  else st.

(** The inner loop, [j] from [i + 1] up to the length (line 46). *)
Definition scan_inner (l : list IPv4Vector) (st : scan) (i : nat) : scan :=
  fold_left (fun st j => scan_step l i j st)
    (seq (i + 1) (List.length l - (i + 1))) st.

(** The outer loop, [i] from [0] up to the length less one (line 45). *)
Definition scan_all (l : list IPv4Vector) : scan :=
  fold_left (scan_inner l) (seq 0 (List.length l - 1)) scan0.

(** [append(s[:i], s[i+1:]...)] *)
Definition remove_at {A : Type} (i : nat) (s : list A) : list A :=
  firstn i s ++ skipn (i + 1) s.

Definition InsufficientVectorsError : error :=
  Errorf "[ERR]: Vectors number should be >2"%string.

(** [closestVectors] (lines 36-68): the two vectors, the error, and the
    slice [*in] as the call leaves it. *)
Definition closestVectors (l : list IPv4Vector)
  : IPv4Vector * IPv4Vector * option error * list IPv4Vector :=
  if Nat.ltb (List.length l) 2 then
    (zeroVector, zeroVector, Some InsufficientVectorsError, l)
  else
    let st := scan_all l in
    let l1 := remove_at (lastIndex st) l in
    let l2 := remove_at (firstIndex st) l1 in
    (closest1 st, closest2 st, None, l2).

(** [countDifferentBits] (lines 113-128). *)
Fixpoint countDifferentBits_loop (bin1 bin2 : string) (n i : nat) : Z :=
  match n with
  | O => 0
  | S n' =>
      if negb (Ascii.eqb (index_byte bin1 i) (index_byte bin2 i))
      then 32 - Z.of_nat i
      else countDifferentBits_loop bin1 bin2 n' (S i)
  end.

Definition countDifferentBits (num1 num2 : Z) : Z :=
  countDifferentBits_loop (Fmt.Sprintf_032b num1) (Fmt.Sprintf_032b num2)
    32 0.

(** [binaryToIP] (lines 131-133). *)
Definition binaryToIP (ip : Z) : IP :=
  IPv4 (byte_of_Z (Z.shiftr ip 24)) (byte_of_Z (Z.shiftr ip 16))
    (byte_of_Z (Z.shiftr ip 8)) (byte_of_Z ip).

(** [uint32ToIP] (lines 136-138). *)
Definition uint32ToIP (ip : Z) : string :=
  String.append (Fmt.Sprintf_d (byte_to_Z (byte_of_Z (Z.shiftr ip 24))))
    (String "."
       (String.append (Fmt.Sprintf_d (byte_to_Z (byte_of_Z (Z.shiftr ip 16))))
          (String "."
             (String.append
                (Fmt.Sprintf_d (byte_to_Z (byte_of_Z (Z.shiftr ip 8))))
                (String "." (Fmt.Sprintf_d (byte_to_Z (byte_of_Z ip)))))))).

(** [fmt.Sprintf("%s/%d", a, n)] *)
Definition Sprintf_s_slash_d (a : string) (n : Z) : string :=
  String.append a (String "/" (Fmt.Sprintf_d n)).

(** [mergeIPNets] (lines 89-110). *)
Definition mergeIPNets (v1 v2 : IPv4Vector)
  : outcome (IPv4Vector * option error) :=
  let minIP := if FirstIP v1 >? FirstIP v2 then FirstIP v2 else FirstIP v1 in
  let maxIP := if LastIP v1 >? LastIP v2 then LastIP v1 else LastIP v2 in
  let newMask := 32 - countDifferentBits minIP maxIP in
  let newIP := To4 (binaryToIP minIP) in
  let newCIDR := Sprintf_s_slash_d (IP_String newIP) newMask in
  cidrToVector newCIDR.

(** How a vector is printed by the last loop of [MergeCIDRs]
    (lines 168-170). *)
Definition render (v : IPv4Vector) : string :=
  let ip := uint32ToIP (FirstIP v) in
  let mask := fst (Size (Mask (CIDR v))) in
  Sprintf_s_slash_d ip mask.

(** The first loop of [MergeCIDRs] (lines 143-154): [inl (out, vectors)]
    when it runs to its end, [inr err] when it returns early. *)
Fixpoint MergeCIDRs_scan (input : list string) (out : list string)
  (vectors : list IPv4Vector)
  : outcome ((list string * list IPv4Vector) + error) :=
  match input with
  | [] => Returned (inl (out, vectors))
  | i :: rest =>
      if negb (strings_Contains i "/") then
        MergeCIDRs_scan rest (out ++ [i]) vectors
      else
        match cidrToVector i with
        | Panicked => Panicked
        | Returned (_, Some err) => Returned (inr err)
        | Returned (v, None) => MergeCIDRs_scan rest out (vectors ++ [v])
        end
  end.

(** [MergeCIDRs] (lines 141-173). *)
Definition MergeCIDRs (input : list string) (maxIpNum : Z)
  : outcome (list string * option error) :=
  match MergeCIDRs_scan input [] [] with
  | Panicked => Panicked
  | Returned (inr err) => Returned ([], Some err)
  | Returned (inl (out, vectors)) =>
      match closestVectors vectors with
      | (_, _, Some err, _) => Returned ([], Some err)
      | (v1, v2, None, vectors1) =>
          match mergeIPNets v1 v2 with
          | Panicked => Panicked
          | Returned (_, Some err) => Returned ([], Some err)
          | Returned (newRange, None) =>
              let vectors2 := vectors1 ++ [newRange] in
              Returned (out ++ map render vectors2, None)
          end
      end
  end.

End Netmerge.

(** * The bounds checks of the index and slice expressions

    [closestVectors] and [countDifferentBits] index a slice and a string
    and cut a slice in two; Go checks every such expression at run time
    and panics when it is out of range. The definitions of [Netmerge]
    read with a default value instead. Here the same functions are
    written again with every one of these checks made, so that a wrong
    index is a panic. *)
Module Checked.

Import Net Netmerge.

(** [s[i]] on a slice: a panic unless [i < len(s)]. *)
Definition index_checked {A : Type} (s : list A) (i : nat) : outcome A :=
  match nth_error s i with
  | Some x => Returned x
  | None => Panicked
  end.

(** [s[i]] on a string: a panic unless [i < len(s)]. *)
Definition string_index_checked (s : string) (i : nat) : outcome byte :=
  match String.get i s with
  | Some c => Returned c
  | None => Panicked
  end.

(** [append(s[:i], s[i+1:]...)]: [s[i+1:]] panics unless
    [i + 1 <= len(s)], and then [s[:i]] is in range too. *)
Definition remove_at_checked {A : Type} (i : nat) (s : list A)
  : outcome (list A) :=
  if Nat.leb (i + 1) (List.length s)
  then Returned (firstn i s ++ skipn (i + 1) s)
  else Panicked.

(** A loop whose body may panic. *)
Fixpoint fold_checked {A B : Type} (f : A -> B -> outcome A) (l : list B)
  (a : A) : outcome A :=
  match l with
  | [] => Returned a
  | b :: l' =>
      match f a b with
      | Panicked => Panicked
      | Returned a' => fold_checked f l' a'
      end
  end.

(** The body of the inner loop of [closestVectors] (lines 47-60); line 47
    reads both elements. *)
Definition scan_step (l : list IPv4Vector) (i j : nat) (st : scan)
  : outcome scan :=
  match index_checked l i, index_checked l j with
  | Returned vi, Returned vj =>
      let dist := float64_of_int (distance vi vj) in
      Returned
        (if lt_dist dist (closestDist st) then
           mkScan vi vj (Some dist)
             (if Nat.ltb j i then j else i) (if Nat.ltb j i then i else j)
         else st)
  | _, _ => Panicked
  end.

Definition scan_inner (l : list IPv4Vector) (st : scan) (i : nat)
  : outcome scan :=
  fold_checked (fun st j => scan_step l i j st)
    (seq (i + 1) (List.length l - (i + 1))) st.

Definition scan_all (l : list IPv4Vector) : outcome scan :=
  fold_checked (scan_inner l) (seq 0 (List.length l - 1)) scan0.

(** [closestVectors] (lines 36-68). *)
Definition closestVectors (l : list IPv4Vector)
  : outcome (IPv4Vector * IPv4Vector * option error * list IPv4Vector) :=
  if Nat.ltb (List.length l) 2 then
    Returned (zeroVector, zeroVector, Some InsufficientVectorsError, l)
  else
    match scan_all l with
    | Panicked => Panicked
    | Returned st =>
        match remove_at_checked (lastIndex st) l with
        | Panicked => Panicked
        | Returned l1 =>
            match remove_at_checked (firstIndex st) l1 with
            | Panicked => Panicked
            | Returned l2 => Returned (closest1 st, closest2 st, None, l2)
            end
        end
    end.

(** [countDifferentBits] (lines 113-128). *)
Fixpoint countDifferentBits_loop (bin1 bin2 : string) (n i : nat)
  : outcome Z :=
  match n with
  | O => Returned 0
  | S n' =>
      match string_index_checked bin1 i, string_index_checked bin2 i with
      | Returned c1, Returned c2 =>
          if negb (Ascii.eqb c1 c2)
          then Returned (32 - Z.of_nat i)
          else countDifferentBits_loop bin1 bin2 n' (S i)
      | _, _ => Panicked
      end
  end.

Definition countDifferentBits (num1 num2 : Z) : outcome Z :=
  countDifferentBits_loop (Fmt.Sprintf_032b num1) (Fmt.Sprintf_032b num2)
    32 0.

(** [mergeIPNets] (lines 89-110). *)
Definition mergeIPNets (v1 v2 : IPv4Vector)
  : outcome (IPv4Vector * option error) :=
  let minIP := if FirstIP v1 >? FirstIP v2 then FirstIP v2 else FirstIP v1 in
  let maxIP := if LastIP v1 >? LastIP v2 then LastIP v1 else LastIP v2 in
  match countDifferentBits minIP maxIP with
  | Panicked => Panicked
  | Returned c =>
      let newMask := 32 - c in
      let newIP := To4 (binaryToIP minIP) in
      let newCIDR := Sprintf_s_slash_d (IP_String newIP) newMask in
      cidrToVector newCIDR
  end.

(** [MergeCIDRs] (lines 141-173). *)
Definition MergeCIDRs (input : list string) (maxIpNum : Z)
  : outcome (list string * option error) :=
  match MergeCIDRs_scan input [] [] with
  | Panicked => Panicked
  | Returned (inr err) => Returned ([], Some err)
  | Returned (inl (out, vectors)) =>
      match closestVectors vectors with
      | Panicked => Panicked
      | Returned (_, _, Some err, _) => Returned ([], Some err)
      | Returned (v1, v2, None, vectors1) =>
          match mergeIPNets v1 v2 with
          | Panicked => Panicked
          | Returned (_, Some err) => Returned ([], Some err)
          | Returned (newRange, None) =>
              let vectors2 := vectors1 ++ [newRange] in
              Returned (out ++ map render vectors2, None)
          end
      end
  end.

End Checked.

(** * Vocabulary of the properties

    Closed forms and predicates the statements below are written with.
    None of them is part of the program. *)

Import Net Netmerge.

(** The value [binary.BigEndian.Uint32] assembles from four bytes. *)
Definition be32 (b0 b1 b2 b3 : byte) : Z :=
  Z.lor (Z.lor (Z.lor (byte_to_Z b3) (Z.shiftl (byte_to_Z b2) 8))
           (Z.shiftl (byte_to_Z b1) 16))
    (Z.shiftl (byte_to_Z b0) 24).

(** Both fields of a vector are [uint32] values. *)
Definition well_formed (v : IPv4Vector) : Prop :=
  is_uint32 (FirstIP v) /\ is_uint32 (LastIP v).

(** [%d] of a byte, its last digit and its number of digits. *)
Definition dec (b : byte) : string := Fmt.Sprintf_d (byte_to_Z b).

Definition last_digit (b : byte) : byte := Fmt.digit (byte_to_Z b mod 10).

Definition digits_of (b : byte) : Z :=
  if byte_to_Z b <? 10 then 1 else if byte_to_Z b <? 100 then 2 else 3.

(** The dotted quad of four bytes, continued by [rest]. *)
Definition dotted (a b c d : byte) (rest : string) : string :=
  String.append (dec a)
    (String "."
       (String.append (dec b)
          (String "."
             (String.append (dec c)
                (String "." (String.append (dec d) rest)))))).

(** A CIDR string in canonical text form: four decimal octets without
    leading zeros joined by dots, a slash, the prefix length in decimal. *)
Definition canonical (a b c d : byte) (n : Z) : string :=
  dotted a b c d (String "/" (Fmt.Sprintf_d n)).

(** The network mask of prefix length [n], as a word. *)
Definition mask32 (n : Z) : Z := 2 ^ 32 - 2 ^ (32 - n).

(** The two addresses [mergeIPNets] starts from (lines 90-101). *)
Definition minFirst (v1 v2 : IPv4Vector) : Z :=
  if FirstIP v1 >? FirstIP v2 then FirstIP v2 else FirstIP v1.

Definition maxLast (v1 v2 : IPv4Vector) : Z :=
  if LastIP v1 >? LastIP v2 then LastIP v1 else LastIP v2.

(** What [mergeIPNets] returns, in closed form. *)
Definition merged (v1 v2 : IPv4Vector) : IPv4Vector :=
  let c := countDifferentBits (minFirst v1 v2) (maxLast v1 v2) in
  mkVector (minFirst v1 v2)
    (Z.lor (minFirst v1 v2) (Z.ones c))
    (mkIPNet (IP_Mask (binaryToIP (minFirst v1 v2)) (CIDRMask (32 - c) 32))
       (CIDRMask (32 - c) 32)).

(** The metric as the specification writes it:
    [|A.first - B.first| + |A.last - B.last|], without any bound. *)
Definition exact_distance (v1 v2 : IPv4Vector) : Z :=
  Z.abs (FirstIP v1 - FirstIP v2) + Z.abs (LastIP v1 - LastIP v2).

(** The distance the scan computes for the pair of indices [(a, b)] of
    the slice [l]. *)
Definition pair_distance (l : list IPv4Vector) (a b : nat) : Z :=
  distance (nth a l zeroVector) (nth b l zeroVector).

(** [(a, b)] comes before [(i, j)] in the order of the two loops. *)
Definition scanned_before (a b i j : nat) : Prop :=
  (a < i)%nat \/ (a = i /\ (b < j)%nat).

(** A pair of indices the loops of [closestVectors] visit. *)
Definition valid_pair (l : list IPv4Vector) (a b : nat) : Prop :=
  (a < b < List.length l)%nat.

(** The state of the scan when the loops stand at [(i, j)]: nothing was
    seen yet, or the pair kept is the first of the least distance among
    those seen. *)
Definition scan_inv (l : list IPv4Vector) (st : scan) (i j : nat) : Prop :=
  match closestDist st with
  | None => forall a b, valid_pair l a b -> ~ scanned_before a b i j
  | Some d =>
      exists i0 j0,
        valid_pair l i0 j0 /\ scanned_before i0 j0 i j /\
        closest1 st = nth i0 l zeroVector /\
        closest2 st = nth j0 l zeroVector /\
        firstIndex st = i0 /\ lastIndex st = j0 /\
        d = pair_distance l i0 j0 /\
        forall a b, valid_pair l a b -> scanned_before a b i j ->
          d <= pair_distance l a b /\
          (scanned_before a b i0 j0 -> d < pair_distance l a b)
  end.

(** The tokens [MergeCIDRs] copies, and those it hands to the parser. *)
Definition literals (input : list string) : list string :=
  filter (fun t => negb (strings_Contains t "/")) input.

Definition cidr_tokens (input : list string) : list string :=
  filter (fun t => strings_Contains t "/") input.

(** The parser accepts [t] and returns [v]. *)
Definition parses (t : string) (v : IPv4Vector) : Prop :=
  cidrToVector t = Returned (v, None).

(** The parser rejects [t] with the error [e]. *)
Definition fails_with (t : string) (e : error) : Prop :=
  exists v, cidrToVector t = Returned (v, Some e).

(** Concrete inputs. [vector_of a b c d n] is what the parser returns for
    the string [a.b.c.d/n]. *)
Definition vector_of (a b c d n : Z) : IPv4Vector :=
  let first := be32 (byte_of_Z a) (byte_of_Z b) (byte_of_Z c) (byte_of_Z d) in
  mkVector first
    (Z.lor (Z.land first (mask32 n)) (Z.lxor (mask32 n) 4294967295))
    (mkIPNet (IP_Mask (IPv4 (byte_of_Z a) (byte_of_Z b) (byte_of_Z c) (byte_of_Z d))
                (CIDRMask n 32))
       (CIDRMask n 32)).

Definition v_192_168_0_0_24 : IPv4Vector := vector_of 192 168 0 0 24.
Definition v_10_0_0_0_24 : IPv4Vector := vector_of 10 0 0 0 24.
Definition v_0_0_0_0_1 : IPv4Vector := vector_of 0 0 0 0 1.
Definition v_128_0_0_0_1 : IPv4Vector := vector_of 128 0 0 0 1.
Definition v_0_0_0_0_2 : IPv4Vector := vector_of 0 0 0 0 2.

Definition example_collection : list IPv4Vector :=
  [v_192_168_0_0_24; v_10_0_0_0_24; v_0_0_0_0_2].

Definition scenario_2 : list string :=
  ["8.8.8.8/32"; "8.8.8.9/32"; "not-a-cidr"]%string.

Definition one_cidr_input : list string :=
  ["office"; "10.0.0.0/24"; "lab"]%string.








(** * Properties *)

(** ** Bytes and 32-bit words *)
Section Words.

Lemma byte_to_Z_range (b : byte) : 0 <= byte_to_Z b < 256.
Proof.
  unfold byte_to_Z. pose proof (N_ascii_bounded b). lia.
Qed.

Lemma byte_to_of_Z (z : Z) : byte_to_Z (byte_of_Z z) = z mod 256.
Proof.
  unfold byte_to_Z, byte_of_Z.
  pose proof (Z.mod_pos_bound z 256 eq_refl) as Hb.
  rewrite N_ascii_embedding by lia.
  now rewrite Z2N.id by lia.
Qed.

Lemma byte_of_to_Z (b : byte) : byte_of_Z (byte_to_Z b) = b.
Proof.
  unfold byte_of_Z. pose proof (byte_to_Z_range b) as Hb.
  rewrite Z.mod_small by exact Hb.
  unfold byte_to_Z. rewrite N2Z.id. apply ascii_N_embedding.
Qed.

(** A word is a [uint32] exactly when it has no bit at position 32 or
    above. *)
Lemma uint32_high_bits (x : Z) :
  is_uint32 x -> forall m, 32 <= m -> Z.testbit x m = false.
Proof.
  intros Hx m Hm. unfold is_uint32 in Hx.
  rewrite <- (Z.mod_small x (2 ^ 32)) by exact Hx.
  apply Z.mod_pow2_bits_high. lia.
Qed.

Lemma high_bits_uint32 (x : Z) :
  (forall m, 32 <= m -> Z.testbit x m = false) -> is_uint32 x.
Proof.
  intros H. unfold is_uint32.
  assert (Hx : x = x mod 2 ^ 32).
  { apply Z.bits_inj'. intros n Hn.
    destruct (Z_lt_le_dec n 32) as [Hlt | Hge].
    - now rewrite Z.mod_pow2_bits_low.
    - rewrite Z.mod_pow2_bits_high by lia. now apply H. }
  rewrite Hx. apply Z.mod_pos_bound. lia.
Qed.

Lemma u32_is_uint32 (z : Z) : is_uint32 (u32 z).
Proof. unfold is_uint32, u32. apply Z.mod_pos_bound. lia. Qed.

Lemma u32_small (z : Z) : is_uint32 z -> u32 z = z.
Proof. intros H. unfold u32. now apply Z.mod_small. Qed.

Lemma byte_high_bits (b : byte) (m : Z) :
  8 <= m -> Z.testbit (byte_to_Z b) m = false.
Proof.
  intros Hm. pose proof (byte_to_Z_range b) as Hb.
  rewrite <- (Z.mod_small (byte_to_Z b) (2 ^ 8)) by (change (2 ^ 8) with 256; lia).
  apply Z.mod_pow2_bits_high. lia.
Qed.

Lemma be32_is_uint32 (b0 b1 b2 b3 : byte) : is_uint32 (be32 b0 b1 b2 b3).
Proof.
  apply high_bits_uint32. intros m Hm. unfold be32.
  rewrite !Z.lor_spec, !Z.shiftl_spec by lia.
  rewrite !byte_high_bits by lia. reflexivity.
Qed.

(** Reading back the four bytes [binaryToIP] cuts a word into. *)
Lemma be32_of_bytes (x : Z) :
  is_uint32 x ->
  be32 (byte_of_Z (Z.shiftr x 24)) (byte_of_Z (Z.shiftr x 16))
    (byte_of_Z (Z.shiftr x 8)) (byte_of_Z x) = x.
Proof.
  intros Hx. unfold be32. rewrite !byte_to_of_Z.
  change 256 with (2 ^ 8).
  apply Z.bits_inj'. intros n Hn.
  rewrite !Z.lor_spec, !Z.shiftl_spec by lia.
  destruct (Z_lt_le_dec n 8) as [H8 | H8].
  { rewrite Z.mod_pow2_bits_low by lia.
    rewrite !(Z.testbit_neg_r _ (n - _)) by lia.
    now rewrite !orb_false_r. }
  rewrite (Z.mod_pow2_bits_high x 8 n) by lia.
  destruct (Z_lt_le_dec n 16) as [H16 | H16].
  { rewrite Z.mod_pow2_bits_low by lia.
    rewrite !(Z.testbit_neg_r _ (n - 16)), !(Z.testbit_neg_r _ (n - 24)) by lia.
    rewrite Z.shiftr_spec by lia. rewrite !orb_false_r. simpl.
    f_equal. lia. }
  rewrite (Z.mod_pow2_bits_high _ 8 (n - 8)) by lia.
  destruct (Z_lt_le_dec n 24) as [H24 | H24].
  { rewrite Z.mod_pow2_bits_low by lia.
    rewrite !(Z.testbit_neg_r _ (n - 24)) by lia.
    rewrite Z.shiftr_spec by lia. rewrite !orb_false_r. simpl.
    f_equal. lia. }
  rewrite (Z.mod_pow2_bits_high _ 8 (n - 16)) by lia.
  destruct (Z_lt_le_dec n 32) as [H32 | H32].
  { rewrite Z.mod_pow2_bits_low by lia.
    rewrite Z.shiftr_spec by lia. simpl. f_equal. lia. }
  rewrite (Z.mod_pow2_bits_high _ 8 (n - 24)) by lia.
  simpl. symmetry. now apply uint32_high_bits.
Qed.

End Words.

(** ** Decimal text: printing an address and reading it back *)
Section Text.

Local Open Scope string_scope.

Ltac each_byte b :=
  destruct b as [[] [] [] [] [] [] [] []].

Lemma append_nil_r (s : string) : s ++ EmptyString = s.
Proof. induction s as [| c s IH]; simpl; [reflexivity | now rewrite IH]. Qed.

Lemma append_assoc (s t u : string) : (s ++ t) ++ u = s ++ (t ++ u).
Proof. induction s as [| c s IH]; simpl; [reflexivity | now rewrite IH]. Qed.

Lemma dec_cut (b : byte) (rest : string) :
  Netip.cut_byte "/"%char (dec b ++ rest) =
  match Netip.cut_byte "/"%char rest with
  | None => None
  | Some (x, y) => Some (dec b ++ x, y)
  end.
Proof.
  each_byte b; cbn; destruct (Netip.cut_byte "/"%char rest) as [[x y] |]; reflexivity.
Qed.

Lemma dec_scan (b : byte) (whole rest : string) :
  Netip.ParseAddr_scan whole (dec b ++ String "." rest) = Netip.parseIPv4 whole.
Proof. each_byte b; reflexivity. Qed.

Lemma dec_digits (b : byte) (rest : string) (prev : option byte) (p : nat)
  (f : list byte) :
  Netip.parseIPv4Fields_loop (dec b ++ rest) prev (Netip.mkV4 0 p 0 f) =
  Netip.parseIPv4Fields_loop rest (Some (last_digit b))
    (Netip.mkV4 (byte_to_Z b) p (digits_of b) f).
Proof. each_byte b; reflexivity. Qed.

Lemma dec_nonempty (b : byte) (rest : string) :
  exists c s, dec b ++ rest = String c s.
Proof. each_byte b; eexists; eexists; reflexivity. Qed.

Lemma last_digit_not_dot (b : byte) : Netip.isDot (last_digit b) = false.
Proof. each_byte b; reflexivity. Qed.

Lemma dot_step (b p : byte) (rest : string) (v : Z) (n : nat) (dl : Z)
  (f : list byte) :
  Netip.isDot p = false -> Nat.eqb n 3 = false ->
  Netip.parseIPv4Fields_loop (String "." (dec b ++ rest)) (Some p)
    (Netip.mkV4 v n dl f) =
  Netip.parseIPv4Fields_loop (dec b ++ rest) (Some "."%char)
    (Netip.mkV4 0 (S n) 0 (list_set f n (byte_of_Z v))).
Proof.
  intros Hp Hn. destruct (dec_nonempty b rest) as [c [s Hs]]. rewrite Hs.
  cbn [Netip.parseIPv4Fields_loop Netip.pos Netip.val Netip.fields].
  change (Netip.isDigit "."%char) with false.
  change (Netip.isDot "."%char) with true.
  cbv iota. rewrite Hp, Hn. reflexivity.
Qed.

(** [parseIPv4Fields] reads a printed dotted quad back. *)
Lemma parseIPv4Fields_dotted (a b c d : byte) :
  Netip.parseIPv4Fields (dotted a b c d EmptyString) (repeat zero_byte 4)
  = Some [a; b; c; d].
Proof.
  unfold Netip.parseIPv4Fields, dotted.
  rewrite dec_digits.
  rewrite dot_step by (reflexivity || apply last_digit_not_dot).
  rewrite dec_digits.
  rewrite dot_step by (reflexivity || apply last_digit_not_dot).
  rewrite dec_digits.
  rewrite dot_step by (reflexivity || apply last_digit_not_dot).
  rewrite dec_digits.
  cbn. now rewrite !byte_of_to_Z.
Qed.

Lemma ParseAddr_dotted (a b c d : byte) :
  Netip.ParseAddr (dotted a b c d EmptyString) = Some (Netip.Addr4 [a; b; c; d]).
Proof.
  unfold Netip.ParseAddr. unfold dotted at 2. rewrite dec_scan.
  unfold Netip.parseIPv4. now rewrite parseIPv4Fields_dotted.
Qed.

Lemma cut_dotted (a b c d : byte) (m : string) :
  Netip.cut_byte "/"%char (dotted a b c d (String "/" m))
  = Some (dotted a b c d EmptyString, m).
Proof.
  assert (Hdot : forall s,
    Netip.cut_byte "/"%char (String "." s) =
    match Netip.cut_byte "/"%char s with
    | None => None
    | Some (x, y) => Some (String "." x, y)
    end) by reflexivity.
  unfold dotted.
  rewrite dec_cut, Hdot, dec_cut, Hdot, dec_cut, Hdot, dec_cut.
  reflexivity.
Qed.

(** A prefix length between 0 and 32, printed and read back by [dtoi]. *)
Lemma dtoi_Sprintf_d (n : Z) :
  (0 <= n <= 32)%Z ->
  dtoi (Fmt.Sprintf_d n) = (n, String.length (Fmt.Sprintf_d n), true).
Proof.
  intros Hn.
  assert (exists k, (k <= 32)%nat /\ n = Z.of_nat k) as [k [Hk ->]]
    by (exists (Z.to_nat n); lia).
  clear Hn.
  do 33 (destruct k as [| k]; [reflexivity |]). lia.
Qed.

End Text.

(** ** Masks and the parser on canonical text *)
Section Canonical.

Ltac each_prefix n :=
  let k := fresh "k" in
  let Hk := fresh "Hk" in
  match goal with
  | H : 0 <= n <= 32 |- _ =>
      assert (exists k, (k <= 32)%nat /\ n = Z.of_nat k) as [k [Hk ->]]
        by (exists (Z.to_nat n); lia);
      clear H;
      do 33 (destruct k as [| k]; [reflexivity |]); lia
  end.

Lemma Uint32_CIDRMask (n : Z) :
  0 <= n <= 32 -> Binary.Uint32 (CIDRMask n 32) = Returned (mask32 n).
Proof. intros Hn. each_prefix n. Qed.

Lemma Size_CIDRMask (n : Z) :
  0 <= n <= 32 -> fst (Size (CIDRMask n 32)) = n.
Proof. intros Hn. each_prefix n. Qed.

Lemma To4_IPv4 (a b c d : byte) : To4 (IPv4 a b c d) = [a; b; c; d].
Proof. reflexivity. Qed.

Lemma ParseCIDR_canonical (a b c d : byte) (n : Z) :
  0 <= n <= 32 ->
  ParseCIDR (canonical a b c d n) =
  inl (IPv4 a b c d,
       mkIPNet (IP_Mask (IPv4 a b c d) (CIDRMask n 32)) (CIDRMask n 32)).
Proof.
  intros Hn. unfold ParseCIDR, canonical.
  rewrite cut_dotted, ParseAddr_dotted.
  cbn [Netip.Zone Netip.BitLen Netip.As16].
  rewrite dtoi_Sprintf_d by exact Hn.
  rewrite Nat.eqb_refl.
  replace (n <? 0) with false by (symmetry; apply Z.ltb_ge; lia).
  replace (n >? 32) with false by (symmetry; rewrite Z.gtb_ltb; apply Z.ltb_ge; lia).
  reflexivity.
Qed.

Lemma cidrToVector_canonical (a b c d : byte) (n : Z) :
  0 <= n <= 32 ->
  cidrToVector (canonical a b c d n) =
  Returned
    (mkVector (be32 a b c d)
       (Z.lor (Z.land (be32 a b c d) (mask32 n))
          (Z.lxor (mask32 n) 4294967295))
       (mkIPNet (IP_Mask (IPv4 a b c d) (CIDRMask n 32)) (CIDRMask n 32)),
     None).
Proof.
  intros Hn. unfold cidrToVector.
  rewrite ParseCIDR_canonical by exact Hn.
  rewrite To4_IPv4. cbn [Binary.Uint32 Mask].
  rewrite Uint32_CIDRMask by exact Hn. reflexivity.
Qed.

Lemma mask32_bits (n m : Z) :
  0 <= n <= 32 -> 0 <= m ->
  Z.testbit (mask32 n) m = (32 - n <=? m) && (m <? 32).
Proof.
  intros Hn Hm.
  assert (Hs : mask32 n = Z.shiftl (Z.ones n) (32 - n)).
  { rewrite Z.shiftl_mul_pow2 by lia. rewrite Z.ones_equiv.
    unfold mask32. replace 32 with (n + (32 - n)) at 1 by lia.
    rewrite Z.pow_add_r by lia. lia. }
  rewrite Hs, Z.shiftl_spec by lia.
  destruct (Z.leb_spec (32 - n) m) as [Hle | Hlt].
  - rewrite Z.testbit_ones_nonneg by lia.
    destruct (Z.ltb_spec (m - (32 - n)) n), (Z.ltb_spec m 32); simpl; lia || reflexivity.
  - now rewrite Z.testbit_neg_r by lia.
Qed.

(** The last address [cidrToVector] computes: the address with its host
    bits set. *)
Lemma last_address (x n : Z) :
  is_uint32 x -> 0 <= n <= 32 ->
  Z.lor (Z.land x (mask32 n)) (Z.lxor (mask32 n) 4294967295)
  = Z.lor x (Z.ones (32 - n)).
Proof.
  intros Hx Hn. change 4294967295 with (Z.ones 32).
  apply Z.bits_inj'. intros m Hm.
  rewrite !Z.lor_spec, Z.land_spec, Z.lxor_spec, mask32_bits by lia.
  rewrite !Z.testbit_ones_nonneg by lia.
  destruct (Z.leb_spec (32 - n) m), (Z.ltb_spec m 32), (Z.ltb_spec m (32 - n));
    try lia; simpl;
    rewrite ?andb_true_r, ?andb_false_r, ?orb_true_r, ?orb_false_r;
    try reflexivity.
  now rewrite uint32_high_bits by (assumption || lia).
Qed.

Lemma lor_ones_is_uint32 (x h : Z) :
  is_uint32 x -> 0 <= h <= 32 -> is_uint32 (Z.lor x (Z.ones h)).
Proof.
  intros Hx Hh. apply high_bits_uint32. intros m Hm.
  rewrite Z.lor_spec, Z.testbit_ones_nonneg by lia.
  rewrite uint32_high_bits by (assumption || lia).
  destruct (Z.ltb_spec m h); [lia | reflexivity].
Qed.

(** A word whose bits from position [h] up agree with those of [x] lies
    at or below [x] with its low [h] bits set. *)
Lemma below_lor_ones (x y h : Z) :
  is_uint32 x -> is_uint32 y -> 0 <= h <= 32 ->
  (forall m, h <= m < 32 -> Z.testbit x m = Z.testbit y m) ->
  y <= Z.lor x (Z.ones h).
Proof.
  intros Hx Hy Hh Hbits.
  apply (Z.ldiff_le y (Z.lor x (Z.ones h))).
  - pose proof (lor_ones_is_uint32 x h Hx Hh) as H. unfold is_uint32 in H. lia.
  - apply Z.bits_inj'. intros m Hm.
    rewrite Z.ldiff_spec, Z.lor_spec, Z.bits_0, Z.testbit_ones_nonneg by lia.
    destruct (Z.ltb_spec m h) as [Hlt | Hge].
    + now rewrite orb_true_r, andb_false_r.
    + destruct (Z_lt_le_dec m 32) as [H32 | H32].
      * rewrite (Hbits m) by lia. rewrite orb_false_r. apply andb_negb_r.
      * now rewrite (uint32_high_bits y Hy m H32).
Qed.

(** The four bytes of a word assembled by [be32], cut out again. *)
Lemma be32_bytes (a b c d : byte) :
  byte_of_Z (Z.shiftr (be32 a b c d) 24) = a /\
  byte_of_Z (Z.shiftr (be32 a b c d) 16) = b /\
  byte_of_Z (Z.shiftr (be32 a b c d) 8) = c /\
  byte_of_Z (be32 a b c d) = d.
Proof.
  assert (Hbyte : forall (z : Z) (x : byte),
            z mod 2 ^ 8 = byte_to_Z x -> byte_of_Z z = x).
  { intros z x Hz. rewrite <- (byte_of_to_Z x), <- Hz.
    unfold byte_of_Z. change (2 ^ 8) with 256.
    now rewrite Z.mod_mod by lia. }
  assert (Hbits : forall (z : Z) (x : byte),
            (forall n, 0 <= n < 8 -> Z.testbit z n = Z.testbit (byte_to_Z x) n) ->
            z mod 2 ^ 8 = byte_to_Z x).
  { intros z x Hz. apply Z.bits_inj'. intros n Hn.
    destruct (Z_lt_le_dec n 8) as [Hlt | Hge].
    - rewrite Z.mod_pow2_bits_low by lia. apply Hz. lia.
    - rewrite Z.mod_pow2_bits_high by lia.
      symmetry. now apply byte_high_bits. }
  unfold be32.
  repeat split; apply Hbyte, Hbits; intros n Hn;
    rewrite ?Z.shiftr_spec by lia;
    rewrite !Z.lor_spec, !Z.shiftl_spec by lia.
  - rewrite (byte_high_bits d), (byte_high_bits c), (byte_high_bits b) by lia.
    cbn [orb]. f_equal. lia.
  - rewrite (byte_high_bits d), (byte_high_bits c) by lia.
    rewrite (Z.testbit_neg_r _ (n + 16 - 24)) by lia.
    rewrite orb_false_r. cbn [orb]. f_equal. lia.
  - rewrite (byte_high_bits d) by lia.
    rewrite (Z.testbit_neg_r _ (n + 8 - 16)), (Z.testbit_neg_r _ (n + 8 - 24)) by lia.
    rewrite !orb_false_r. cbn [orb]. f_equal. lia.
  - rewrite (Z.testbit_neg_r _ (n - 8)), (Z.testbit_neg_r _ (n - 16)),
      (Z.testbit_neg_r _ (n - 24)) by lia.
    now rewrite !orb_false_r.
Qed.

Lemma uint32ToIP_be32 (a b c d : byte) :
  uint32ToIP (be32 a b c d) = dotted a b c d EmptyString.
Proof.
  unfold uint32ToIP.
  destruct (be32_bytes a b c d) as (-> & -> & -> & ->).
  unfold dotted. fold (dec a) (dec b) (dec c) (dec d).
  now rewrite append_nil_r.
Qed.

Lemma canonical_split (a b c d : byte) (n : Z) :
  Sprintf_s_slash_d (dotted a b c d EmptyString) n = canonical a b c d n.
Proof.
  unfold Sprintf_s_slash_d, canonical, dotted.
  rewrite append_assoc. cbn [String.append]. f_equal. f_equal.
  rewrite append_assoc. cbn [String.append]. f_equal. f_equal.
  rewrite append_assoc. cbn [String.append]. f_equal. f_equal.
  now rewrite append_assoc.
Qed.

End Canonical.

(** ** The supernet merger *)
Section Merger.

Lemma index_bit (x : Z) (i : nat) :
  (i < 32)%nat -> index_byte (Fmt.Sprintf_032b x) i = Fmt.bit_char x i.
Proof.
  intros Hi. do 32 (destruct i as [| i]; [reflexivity |]). lia.
Qed.

Lemma bit_char_eqb (x y : Z) (i : nat) :
  Ascii.eqb (Fmt.bit_char x i) (Fmt.bit_char y i) =
  Bool.eqb (Z.testbit x (31 - Z.of_nat i)) (Z.testbit y (31 - Z.of_nat i)).
Proof.
  unfold Fmt.bit_char.
  destruct (Z.testbit x _), (Z.testbit y _); reflexivity.
Qed.

(** The loop of [countDifferentBits], entered at index [i] with the bits
    above agreeing, returns a count [c] such that the bits from position
    [c] up to 31 agree. *)
Lemma countDifferentBits_loop_spec (x y : Z) (n : nat) :
  forall i : nat,
    (n + i = 32)%nat ->
    (forall m, 32 - Z.of_nat i <= m < 32 -> Z.testbit x m = Z.testbit y m) ->
    let c := countDifferentBits_loop (Fmt.Sprintf_032b x) (Fmt.Sprintf_032b y) n i in
    0 <= c <= 32 /\
    (forall m, c <= m < 32 -> Z.testbit x m = Z.testbit y m).
Proof.
  induction n as [| n IH]; intros i Hi Hagree; cbn [countDifferentBits_loop].
  - split; [lia |]. intros m Hm. apply Hagree. lia.
  - rewrite !index_bit by lia. rewrite bit_char_eqb.
    destruct (Bool.eqb _ _) eqn:Heq; cbn [negb].
    + apply IH; [lia |]. intros m Hm.
      destruct (Z.eq_dec m (31 - Z.of_nat i)) as [-> | Hne].
      * now apply eqb_prop.
      * apply Hagree. lia.
    + split; [lia |]. intros m Hm. apply Hagree. lia.
Qed.

Lemma countDifferentBits_spec (x y : Z) :
  0 <= countDifferentBits x y <= 32 /\
  (forall m, countDifferentBits x y <= m < 32 -> Z.testbit x m = Z.testbit y m).
Proof.
  unfold countDifferentBits.
  apply (countDifferentBits_loop_spec x y 32 0); [reflexivity |].
  intros m Hm. simpl in Hm. lia.
Qed.

Lemma Sprintf_canonical (a b c d : byte) (n : Z) :
  Sprintf_s_slash_d (IP_String [a; b; c; d]) n = canonical a b c d n.
Proof.
  change (IP_String [a; b; c; d]) with (string4 [a; b; c; d]).
  unfold Sprintf_s_slash_d, string4, canonical, dotted.
  cbn [nth]. fold (dec a) (dec b) (dec c) (dec d).
  rewrite append_assoc. cbn [String.append]. f_equal. f_equal.
  rewrite append_assoc. cbn [String.append]. f_equal. f_equal.
  rewrite append_assoc. cbn [String.append]. reflexivity.
Qed.

Lemma minFirst_is_uint32 (v1 v2 : IPv4Vector) :
  is_uint32 (FirstIP v1) -> is_uint32 (FirstIP v2) -> is_uint32 (minFirst v1 v2).
Proof. intros H1 H2. unfold minFirst. now destruct (_ >? _). Qed.

Lemma maxLast_is_uint32 (v1 v2 : IPv4Vector) :
  is_uint32 (LastIP v1) -> is_uint32 (LastIP v2) -> is_uint32 (maxLast v1 v2).
Proof. intros H1 H2. unfold maxLast. now destruct (_ >? _). Qed.

(** [mergeIPNets] always returns, without an error: the string it prints
    is one its parser accepts. *)
Lemma mergeIPNets_returns (v1 v2 : IPv4Vector) :
  is_uint32 (FirstIP v1) -> is_uint32 (FirstIP v2) ->
  mergeIPNets v1 v2 = Returned (merged v1 v2, None).
Proof.
  intros H1 H2. unfold mergeIPNets, merged.
  fold (minFirst v1 v2) (maxLast v1 v2).
  pose proof (minFirst_is_uint32 v1 v2 H1 H2) as Hmin.
  destruct (countDifferentBits_spec (minFirst v1 v2) (maxLast v1 v2)) as [Hc _].
  set (c := countDifferentBits (minFirst v1 v2) (maxLast v1 v2)) in *.
  unfold binaryToIP. rewrite To4_IPv4, Sprintf_canonical.
  rewrite cidrToVector_canonical by lia.
  rewrite be32_of_bytes by exact Hmin.
  rewrite last_address by (assumption || lia).
  replace (32 - (32 - c)) with c by lia. reflexivity.
Qed.

End Merger.

(** ** The distance metric *)
Section Distance.

(** [uint32(float64(int32(x)))] of a word below [2^31]: every conversion
    is in range and exact. *)
Lemma cast_in_range (x : Z) :
  0 <= x < 2 ^ 31 ->
  uint32_of_float64 (float64_of_int (int32_of_uint32 x)) = x.
Proof.
  intros Hx. unfold uint32_of_float64, float64_of_int, int32_of_uint32.
  replace (x <? 2 ^ 31) with true by (symmetry; apply Z.ltb_lt; lia).
  apply Z.mod_small. lia.
Qed.

(** The same round trip from [2^31] up goes through a negative float;
    with the conversion of the gc compiler it gives [x] back as well. *)
Lemma cast_round_trip (x : Z) :
  is_uint32 x ->
  uint32_of_float64 (float64_of_int (int32_of_uint32 x)) = x.
Proof.
  intros Hx. unfold uint32_of_float64, float64_of_int, int32_of_uint32.
  unfold is_uint32 in Hx.
  destruct (Z.ltb_spec x (2 ^ 31)).
  - apply Z.mod_small. lia.
  - replace (x - 2 ^ 32) with (x + (-1) * 2 ^ 32) by lia.
    rewrite Z.mod_add by lia. apply Z.mod_small. lia.
Qed.

Lemma field_difference (a b : Z) :
  is_uint32 a -> is_uint32 b ->
  (if a >? b then u32 (a - b) else u32 (b - a)) = Z.abs (a - b).
Proof.
  unfold is_uint32. intros Ha Hb. rewrite Z.gtb_ltb.
  destruct (Z.ltb_spec b a); rewrite u32_small by (unfold is_uint32; lia); lia.
Qed.

(** Differences below [2^31]: the metric is the exact sum. *)
Lemma distance_of_small_differences (v1 v2 : IPv4Vector) :
  well_formed v1 -> well_formed v2 ->
  Z.abs (FirstIP v1 - FirstIP v2) < 2 ^ 31 ->
  Z.abs (LastIP v1 - LastIP v2) < 2 ^ 31 ->
  distance v1 v2 = exact_distance v1 v2.
Proof.
  intros [HF1 HL1] [HF2 HL2] HdF HdL. unfold distance, exact_distance.
  rewrite !field_difference by assumption.
  rewrite !cast_in_range by lia.
  apply u32_small. unfold is_uint32. lia.
Qed.

Lemma distance_is_uint32 (v1 v2 : IPv4Vector) : is_uint32 (distance v1 v2).
Proof. unfold distance. apply u32_is_uint32. Qed.

Lemma nth_well_formed (l : list IPv4Vector) (a : nat) :
  Forall well_formed l -> (a < List.length l)%nat ->
  well_formed (nth a l zeroVector).
Proof.
  intros Hwf Ha.
  now apply (proj1 (Forall_forall well_formed l) Hwf), nth_In.
Qed.

End Distance.

(** ** The closest-pair selector *)
Section Selector.

Variable l : list IPv4Vector.

Lemma scan_inv_start : scan_inv l scan0 0 1.
Proof.
  cbn. intros a b [Hab _] [Ha | [Ha Hb]]; lia.
Qed.

Lemma scan_inv_step (st : scan) (i j : nat) :
  valid_pair l i j ->
  scan_inv l st i j -> scan_inv l (scan_step l i j st) i (S j).
Proof.
  intros Hv Hinv. unfold scan_step, float64_of_int.
  fold (pair_distance l i j).
  assert (Hji : Nat.ltb j i = false) by (apply Nat.ltb_ge; unfold valid_pair in Hv; lia).
  rewrite Hji. unfold scan_inv in *.
  destruct (closestDist st) as [d |] eqn:Hd; cbn [lt_dist].
  - destruct Hinv as (i0 & j0 & Hv0 & Hb0 & H1 & H2 & Hf & Hl & Hd0 & Hmin).
    destruct (Z.ltb_spec (pair_distance l i j) d) as [Hlt | Hge].
    + cbn. exists i, j. repeat split; try reflexivity; try apply Hv.
      * right. lia.
      * destruct (Nat.eq_dec a i) as [-> | Hne];
          [destruct (Nat.eq_dec b j) as [-> | Hnb] |].
        -- lia.
        -- destruct (Hmin i b H) as [Hle _]; [| lia].
           destruct H0 as [? | [_ ?]]; [lia |]. right. lia.
        -- destruct (Hmin a b H) as [Hle _]; [| lia].
           destruct H0 as [? | [? _]]; [left; lia | contradiction].
      * intros Hbefore.
        destruct (Hmin a b H) as [Hle _]; [| lia].
        destruct Hbefore as [? | [-> ?]]; [left; lia | right; lia].
    + rewrite Hd. exists i0, j0. repeat split; try assumption; try apply Hv0.
      * destruct Hb0 as [? | [? ?]]; [left; lia | right; lia].
      * destruct (Nat.eq_dec a i) as [-> | Hne];
          [destruct (Nat.eq_dec b j) as [-> | Hnb] |].
        -- lia.
        -- destruct (Hmin i b H) as [Hle _]; [| lia].
           destruct H0 as [? | [_ ?]]; [lia |]. right. lia.
        -- destruct (Hmin a b H) as [Hle _]; [| lia].
           destruct H0 as [? | [? _]]; [left; lia | contradiction].
      * intros Hbefore.
        assert (Hab : scanned_before a b i j).
        { destruct Hbefore as [? | [-> ?]], Hb0 as [? | [? ?]];
            unfold scanned_before; lia. }
        destruct (Hmin a b H Hab) as [_ Hstrict]. now apply Hstrict.
  - cbn. exists i, j. repeat split; try reflexivity; try apply Hv.
    + right. lia.
    + destruct (Nat.eq_dec a i) as [-> | Hne];
        [destruct (Nat.eq_dec b j) as [-> | Hnb] |].
      * lia.
      * exfalso. apply (Hinv i b H).
        destruct H0 as [? | [_ ?]]; [lia |]. right. lia.
      * exfalso. apply (Hinv a b H).
        destruct H0 as [? | [? _]]; [left; lia | contradiction].
    + intros Hbefore. exfalso. apply (Hinv a b H).
      destruct Hbefore as [? | [-> ?]]; [left; lia | right; lia].
Qed.


Lemma scan_inner_inv (i : nat) :
  forall (cnt j : nat) (st : scan),
    (i < j)%nat -> (j + cnt <= List.length l)%nat ->
    scan_inv l st i j ->
    scan_inv l (fold_left (fun st j => scan_step l i j st) (seq j cnt) st)
      i (j + cnt).
Proof.
  induction cnt as [| cnt IH]; intros j st Hij Hlen Hinv; cbn [seq fold_left].
  - now rewrite Nat.add_0_r.
  - replace (j + S cnt)%nat with (S j + cnt)%nat by lia.
    apply IH; [lia | lia |].
    apply scan_inv_step; [unfold valid_pair; lia | exact Hinv].
Qed.

(** Passing from the end of row [i] to the start of row [i + 1]. *)
Lemma scan_inv_next_row (st : scan) (i : nat) :
  scan_inv l st i (List.length l) -> scan_inv l st (S i) (S (S i)).
Proof.
  assert (Hsame : forall a b, valid_pair l a b ->
            (scanned_before a b i (List.length l) <-> scanned_before a b (S i) (S (S i)))).
  { intros a b [Hab Hb]. unfold scanned_before. lia. }
  unfold scan_inv. destruct (closestDist st) as [d |].
  - intros (i0 & j0 & Hv0 & Hb0 & H1 & H2 & Hf & Hl & Hd0 & Hmin).
    exists i0, j0. repeat split; try assumption; try apply Hv0.
    + now apply Hsame.
    + apply Hmin; [assumption | now apply Hsame].
    + apply Hmin; [assumption | now apply Hsame].
  - intros Hnone a b Hv Hb. apply (Hnone a b Hv). now apply Hsame.
Qed.

Lemma scan_outer_inv :
  forall (cnt i : nat) (st : scan),
    (i + cnt <= List.length l - 1)%nat ->
    scan_inv l st i (S i) ->
    scan_inv l (fold_left (scan_inner l) (seq i cnt) st) (i + cnt) (S (i + cnt)).
Proof.
  induction cnt as [| cnt IH]; intros i st Hlen Hinv; cbn [seq fold_left].
  - now rewrite Nat.add_0_r.
  - replace (i + S cnt)%nat with (S i + cnt)%nat by lia.
    apply IH; [lia |].
    apply scan_inv_next_row.
    unfold scan_inner.
    replace (List.length l) with (i + 1 + (List.length l - (i + 1)))%nat at 2 by lia.
    apply scan_inner_inv; [lia | lia |].
    now replace (i + 1)%nat with (S i) by lia.
Qed.

(** After both loops: the pair kept is the first pair of least distance
    among all pairs of the slice. *)
Lemma scan_all_spec :
  (2 <= List.length l)%nat ->
  exists i0 j0,
    (i0 < j0 < List.length l)%nat /\
    closest1 (scan_all l) = nth i0 l zeroVector /\
    closest2 (scan_all l) = nth j0 l zeroVector /\
    firstIndex (scan_all l) = i0 /\ lastIndex (scan_all l) = j0 /\
    forall a b, (a < b < List.length l)%nat ->
      pair_distance l i0 j0 <= pair_distance l a b /\
      (scanned_before a b i0 j0 -> pair_distance l i0 j0 < pair_distance l a b).
Proof.
  intros Hlen.
  pose proof (scan_outer_inv (List.length l - 1) 0 scan0) as Hinv.
  specialize (Hinv ltac:(lia) scan_inv_start).
  fold (scan_all l) in Hinv. cbn [Nat.add] in Hinv.
  assert (Hall : forall a b, valid_pair l a b ->
            scanned_before a b (List.length l - 1) (S (List.length l - 1))).
  { intros a b [Hab Hb]. left. lia. }
  unfold scan_inv in Hinv. destruct (closestDist (scan_all l)) as [d |].
  - destruct Hinv as (i0 & j0 & Hv0 & Hb0 & H1 & H2 & Hf & Hl & Hd0 & Hmin).
    exists i0, j0. repeat split; try assumption; try apply Hv0.
    + rewrite <- Hd0. apply Hmin; [assumption | now apply Hall].
    + rewrite <- Hd0. apply Hmin; [assumption | now apply Hall].
  - exfalso. apply (Hinv 0%nat 1%nat).
    + unfold valid_pair. lia.
    + apply Hall. unfold valid_pair. lia.
Qed.

(** [closestVectors] on a slice of at least two vectors. *)
Lemma closestVectors_spec :
  (2 <= List.length l)%nat ->
  exists i0 j0,
    (i0 < j0 < List.length l)%nat /\
    closestVectors l =
      (nth i0 l zeroVector, nth j0 l zeroVector, None,
       remove_at i0 (remove_at j0 l)) /\
    forall a b, (a < b < List.length l)%nat ->
      pair_distance l i0 j0 <= pair_distance l a b /\
      (scanned_before a b i0 j0 -> pair_distance l i0 j0 < pair_distance l a b).
Proof.
  intros Hlen.
  destruct (scan_all_spec Hlen) as (i0 & j0 & Hv & H1 & H2 & Hf & Hl & Hmin).
  exists i0, j0. split; [exact Hv |]. split; [| exact Hmin].
  unfold closestVectors.
  replace (Nat.ltb (List.length l) 2) with false
    by (symmetry; apply Nat.ltb_ge; lia).
  cbv zeta. now rewrite H1, H2, Hf, Hl.
Qed.

End Selector.

(** ** The orchestrator *)
Section Orchestrator.

Lemma Uint32_be32 (b : list byte) (x : Z) :
  Binary.Uint32 b = Returned x ->
  exists b0 b1 b2 b3, x = be32 b0 b1 b2 b3.
Proof.
  destruct b as [| b0 [| b1 [| b2 [| b3 rest]]]]; cbn; intros H;
    try discriminate.
  injection H as <-. now exists b0, b1, b2, b3.
Qed.

Lemma cidrToVector_fields (s : string) (v : IPv4Vector) :
  parses s v ->
  exists ip ipNet mask,
    ParseCIDR s = inl (ip, ipNet) /\
    Binary.Uint32 (To4 ip) = Returned (FirstIP v) /\
    Binary.Uint32 (Mask ipNet) = Returned mask /\
    LastIP v = Z.lor (Z.land (FirstIP v) mask) (Z.lxor mask 4294967295) /\
    CIDR v = ipNet.
Proof.
  unfold parses, cidrToVector.
  destruct (ParseCIDR s) as [[ip ipNet] | err] eqn:HP; [| discriminate].
  destruct (Binary.Uint32 (To4 ip)) as [ipUint |] eqn:HF; [| discriminate].
  destruct (Binary.Uint32 (Mask ipNet)) as [mask |] eqn:HM; [| discriminate].
  intros H. injection H as <-.
  exists ip, ipNet, mask. repeat split; assumption || reflexivity.
Qed.

(** Every vector the parser returns holds two [uint32] values. *)
Lemma parses_is_uint32 (s : string) (v : IPv4Vector) :
  parses s v -> is_uint32 (FirstIP v) /\ is_uint32 (LastIP v).
Proof.
  intros H.
  destruct (cidrToVector_fields s v H) as (ip & ipNet & mask & _ & HF & HM & HL & _).
  destruct (Uint32_be32 _ _ HF) as (a0 & a1 & a2 & a3 & HFe).
  destruct (Uint32_be32 _ _ HM) as (m0 & m1 & m2 & m3 & HMe).
  pose proof (be32_is_uint32 a0 a1 a2 a3) as HFr. rewrite <- HFe in HFr.
  pose proof (be32_is_uint32 m0 m1 m2 m3) as HMr. rewrite <- HMe in HMr.
  split; [exact HFr |].
  rewrite HL. apply high_bits_uint32. intros m Hm.
  change 4294967295 with (Z.ones 32).
  rewrite Z.lor_spec, Z.land_spec, Z.lxor_spec.
  rewrite Z.testbit_ones_nonneg by lia.
  rewrite (uint32_high_bits _ HFr m Hm), (uint32_high_bits _ HMr m Hm).
  destruct (Z.ltb_spec m 32); [lia | reflexivity].
Qed.

(** The first loop of [MergeCIDRs] when every token with a slash parses. *)
Lemma MergeCIDRs_scan_parsed (input : list string) :
  forall (out : list string) (vectors vs : list IPv4Vector),
    Forall2 parses (cidr_tokens input) vs ->
    MergeCIDRs_scan input out vectors =
    Returned (inl (out ++ literals input, vectors ++ vs)).
Proof.
  induction input as [| t rest IH]; intros out vectors vs Hvs;
    cbn [MergeCIDRs_scan literals cidr_tokens filter] in *.
  - inversion Hvs. now rewrite !app_nil_r.
  - destruct (strings_Contains t "/") eqn:Ht; cbn [negb] in *.
    + inversion Hvs as [| t' v ts vs' Hp Hrest]; subst.
      unfold parses in Hp. rewrite Hp.
      rewrite (IH out (vectors ++ [v]) vs' Hrest).
      now rewrite <- app_assoc.
    + rewrite (IH (out ++ [t]) vectors vs Hvs).
      now rewrite <- app_assoc.
Qed.

(** The first loop of [MergeCIDRs] when a token fails to parse and every
    token with a slash before it parses. *)
Lemma MergeCIDRs_scan_rejects (pre : list string) (t : string)
  (post : list string) (e : error) :
  forall (out : list string) (vectors vs : list IPv4Vector),
    Forall2 parses (cidr_tokens pre) vs ->
    strings_Contains t "/" = true ->
    fails_with t e ->
    MergeCIDRs_scan (pre ++ t :: post) out vectors = Returned (inr e).
Proof.
  induction pre as [| p pre IH]; intros out vectors vs Hvs Ht [v Hf];
    cbn [app MergeCIDRs_scan cidr_tokens filter] in *.
  - rewrite Ht. cbn [negb]. now rewrite Hf.
  - destruct (strings_Contains p "/") eqn:Hp; cbn [negb].
    + inversion Hvs as [| p' w ps vs' Hw Hrest]; subst.
      unfold parses in Hw. rewrite Hw.
      apply (IH out (vectors ++ [w]) vs' Hrest Ht). now exists v.
    + apply (IH (out ++ [p]) vectors vs Hvs Ht). now exists v.
Qed.

Lemma remove_at_length {A : Type} (i : nat) (s : list A) :
  (i < List.length s)%nat ->
  List.length (remove_at i s) = (List.length s - 1)%nat.
Proof.
  intros Hi. unfold remove_at.
  rewrite length_app, length_firstn, length_skipn. lia.
Qed.

Lemma Forall2_nth_parses (ts : list string) (vs : list IPv4Vector) (i : nat) :
  Forall2 parses ts vs -> (i < List.length vs)%nat ->
  exists t, parses t (nth i vs zeroVector).
Proof.
  intros H. revert i. induction H as [| t v ts vs Hp _ IH]; intros i Hi.
  - cbn in Hi. lia.
  - destruct i as [| i]; cbn.
    + now exists t.
    + apply IH. cbn in Hi. lia.
Qed.

Lemma ParseCIDR_error (s : string) (e : error) :
  ParseCIDR s = inr e -> e = CIDR_error s.
Proof.
  unfold ParseCIDR.
  destruct (Netip.cut_byte "/"%char s) as [[addr mask] |]; [| congruence].
  destruct (Netip.ParseAddr addr) as [ipAddr |]; [| congruence].
  destruct (Netip.Zone ipAddr); [| congruence].
  destruct (dtoi mask) as [[n i] ok].
  destruct (negb ok || negb (Nat.eqb i (String.length mask)) || (n <? 0)
            || (n >? Netip.BitLen ipAddr)); congruence.
Qed.

(** The only error the parser returns is the [ParseError] of
    [net.ParseCIDR], carrying the token. *)
Lemma fails_with_error (t : string) (e : error) :
  fails_with t e -> e = CIDR_error t.
Proof.
  intros [v Hv]. unfold cidrToVector in Hv.
  destruct (ParseCIDR t) as [[ip ipNet] | err] eqn:HP.
  - destruct (Binary.Uint32 (To4 ip)); [| discriminate].
    destruct (Binary.Uint32 (Mask ipNet)); discriminate.
  - injection Hv as _ <-. now apply ParseCIDR_error.
Qed.

End Orchestrator.

(** * The claims *)

(** The parser returns the vectors named above. *)
Lemma example_vectors_parse :
  parses "192.168.0.0/24" v_192_168_0_0_24 /\
  parses "10.0.0.0/24" v_10_0_0_0_24 /\
  parses "0.0.0.0/1" v_0_0_0_0_1 /\
  parses "128.0.0.0/1" v_128_0_0_0_1 /\
  parses "0.0.0.0/2" v_0_0_0_0_2.
Proof. repeat split; vm_compute; reflexivity. Qed.

(** C1. Containment: merging two intervals [A] and [B] with [mergeIPNets]
    returns, without error, an interval [out] with
    [out.first <= min (A.first, B.first)] and
    [out.last >= max (A.last, B.last)]; every address of [A] or of [B]
    lies in [[out.first, out.last]]. *)
Theorem mergeIPNets_contains (A B : IPv4Vector) :
  is_uint32 (FirstIP A) -> is_uint32 (LastIP A) ->
  is_uint32 (FirstIP B) -> is_uint32 (LastIP B) ->
  exists out,
    mergeIPNets A B = Returned (out, None) /\
    FirstIP out <= Z.min (FirstIP A) (FirstIP B) /\
    Z.max (LastIP A) (LastIP B) <= LastIP out /\
    (forall x,
        FirstIP A <= x <= LastIP A \/ FirstIP B <= x <= LastIP B ->
        FirstIP out <= x <= LastIP out).
Proof.
  intros HFA HLA HFB HLB.
  exists (merged A B).
  split; [now apply mergeIPNets_returns |].
  pose proof (minFirst_is_uint32 A B HFA HFB) as Hmin.
  pose proof (maxLast_is_uint32 A B HLA HLB) as Hmax.
  destruct (countDifferentBits_spec (minFirst A B) (maxLast A B)) as [Hc Hbits].
  assert (Hfirst : FirstIP (merged A B) <= Z.min (FirstIP A) (FirstIP B)).
  { cbn. unfold minFirst. rewrite Z.gtb_ltb.
    destruct (Z.ltb_spec (FirstIP B) (FirstIP A)); lia. }
  assert (Hlast : Z.max (LastIP A) (LastIP B) <= LastIP (merged A B)).
  { cbn [merged LastIP].
    apply Z.le_trans with (maxLast A B).
    - unfold maxLast. rewrite Z.gtb_ltb.
      destruct (Z.ltb_spec (LastIP B) (LastIP A)); lia.
    - now apply below_lor_ones. }
  repeat split; try assumption; lia.
Qed.

Lemma mergeIPNets_contains_witness :
  exists out,
    mergeIPNets v_192_168_0_0_24 v_10_0_0_0_24 = Returned (out, None) /\
    FirstIP out <= Z.min (FirstIP v_192_168_0_0_24) (FirstIP v_10_0_0_0_24) /\
    Z.max (LastIP v_192_168_0_0_24) (LastIP v_10_0_0_0_24) <= LastIP out /\
    (forall x,
        FirstIP v_192_168_0_0_24 <= x <= LastIP v_192_168_0_0_24 \/
        FirstIP v_10_0_0_0_24 <= x <= LastIP v_10_0_0_0_24 ->
        FirstIP out <= x <= LastIP out).
Proof.
  apply (mergeIPNets_contains v_192_168_0_0_24 v_10_0_0_0_24);
    vm_compute; split; congruence.
Defined.

(** C2, at the input the claim names. For ["10.0.0.5/24"] the parser
    returns [first = 10.0.0.5], the address as written, where the claim
    has the address masked, [10.0.0.0]; [last] is [10.0.0.255]. *)
Theorem cidrToVector_keeps_host_bits :
  exists v,
    cidrToVector "10.0.0.5/24" = Returned (v, None) /\
    Binary.Uint32 (Mask (CIDR v)) = Returned (mask32 24) /\
    FirstIP v = 167772165 /\
    Z.land 167772165 (mask32 24) = 167772160 /\
    FirstIP v <> Z.land 167772165 (mask32 24) /\
    LastIP v = 167772415.
Proof.
  eexists. split; [vm_compute; reflexivity |].
  repeat split; try (vm_compute; reflexivity).
  vm_compute. discriminate.
Qed.

(** The second scenario of the specification, evaluated. *)
Example scenario_2_output :
  MergeCIDRs scenario_2 0
  = Returned (["not-a-cidr"; "8.8.8.8/31"]%string, None).
Proof. vm_compute. reflexivity. Qed.

(** C4. With fewer than two tokens that parse, all others being literals
    without a slash, [MergeCIDRs] returns an empty output and the error of
    [closestVectors]; no literal is emitted. *)
Theorem MergeCIDRs_arity_guard (input : list string) (maxIpNum : Z)
  (vs : list IPv4Vector) :
  Forall2 parses (cidr_tokens input) vs ->
  (List.length vs < 2)%nat ->
  MergeCIDRs input maxIpNum = Returned ([], Some InsufficientVectorsError).
Proof.
  intros Hvs Hlen. unfold MergeCIDRs.
  rewrite (MergeCIDRs_scan_parsed input [] [] vs Hvs).
  cbn [app]. unfold closestVectors.
  replace (Nat.ltb (List.length vs) 2) with true
    by (symmetry; apply Nat.ltb_lt; exact Hlen).
  reflexivity.
Qed.

Lemma MergeCIDRs_arity_guard_witness :
  Forall2 parses (cidr_tokens one_cidr_input) [v_10_0_0_0_24] /\
  MergeCIDRs one_cidr_input 0 = Returned ([], Some InsufficientVectorsError).
Proof.
  assert (H : Forall2 parses (cidr_tokens one_cidr_input) [v_10_0_0_0_24]).
  { repeat constructor; vm_compute; reflexivity. }
  split; [exact H |].
  apply (MergeCIDRs_arity_guard one_cidr_input 0 [v_10_0_0_0_24] H).
  simpl. lia.
Defined.

(** C5, at an input where the claim fails. ["10.0.0.0/33"] is a token the
    parser rejects with a [ParseError]; when ["::1/128"] stands before it,
    [MergeCIDRs] panics on that first token and returns no error. *)
Theorem MergeCIDRs_panics_before_parse_error :
  strings_Contains "10.0.0.0/33" "/" = true /\
  fails_with "10.0.0.0/33" (CIDR_error "10.0.0.0/33") /\
  forall maxIpNum,
    MergeCIDRs ["::1/128"; "10.0.0.0/33"]%string maxIpNum = Panicked.
Proof.
  split; [reflexivity |]. split.
  - exists zeroVector. vm_compute. reflexivity.
  - intros m. vm_compute. reflexivity.
Qed.

(** C6 (as amended). On a collection of at least two intervals,
    [closestVectors] returns the pair at two indices [i0 < j0], removes
    both, and that pair has the least value of [distance] (the 32-bit
    value the implementation computes, see C7) among all pairs [a < b]:
    at most that of every pair, and strictly less than that of every pair
    the loops meet before [(i0, j0)]. Where the first addresses and the
    last addresses of every pair are each less than [2^31] apart, the
    same holds of the exact distance
    [|A.first - B.first| + |A.last - B.last|]. *)
Theorem closestVectors_minimal (l : list IPv4Vector) :
  (2 <= List.length l)%nat ->
  exists i0 j0,
    (i0 < j0 < List.length l)%nat /\
    closestVectors l =
      (nth i0 l zeroVector, nth j0 l zeroVector, None,
       remove_at i0 (remove_at j0 l)) /\
    (forall a b, (a < b < List.length l)%nat ->
      distance (nth i0 l zeroVector) (nth j0 l zeroVector)
        <= distance (nth a l zeroVector) (nth b l zeroVector) /\
      (scanned_before a b i0 j0 ->
       distance (nth i0 l zeroVector) (nth j0 l zeroVector)
         < distance (nth a l zeroVector) (nth b l zeroVector))) /\
    (Forall well_formed l ->
     (forall a b, (a < b < List.length l)%nat ->
        Z.abs (FirstIP (nth a l zeroVector) - FirstIP (nth b l zeroVector))
          < 2 ^ 31 /\
        Z.abs (LastIP (nth a l zeroVector) - LastIP (nth b l zeroVector))
          < 2 ^ 31) ->
     forall a b, (a < b < List.length l)%nat ->
      exact_distance (nth i0 l zeroVector) (nth j0 l zeroVector)
        <= exact_distance (nth a l zeroVector) (nth b l zeroVector) /\
      (scanned_before a b i0 j0 ->
       exact_distance (nth i0 l zeroVector) (nth j0 l zeroVector)
         < exact_distance (nth a l zeroVector) (nth b l zeroVector))).
Proof.
  intros Hlen.
  destruct (closestVectors_spec l Hlen) as (i0 & j0 & Hv & Hcall & Hmin).
  exists i0, j0. split; [exact Hv |]. split; [exact Hcall |].
  split; [exact Hmin |].
  intros Hwf Hnear a b Hab.
  assert (Hexact : forall x y, (x < y < List.length l)%nat ->
            exact_distance (nth x l zeroVector) (nth y l zeroVector)
            = pair_distance l x y).
  { intros x y Hxy. symmetry. unfold pair_distance.
    apply distance_of_small_differences;
      try (apply nth_well_formed; [exact Hwf | lia]);
      now apply Hnear. }
  rewrite (Hexact i0 j0 Hv), (Hexact a b Hab). now apply Hmin.
Qed.

Lemma closestVectors_minimal_witness :
  (2 <= List.length example_collection)%nat /\
  exists i0 j0,
    (i0 < j0 < List.length example_collection)%nat /\
    closestVectors example_collection =
      (nth i0 example_collection zeroVector,
       nth j0 example_collection zeroVector, None,
       remove_at i0 (remove_at j0 example_collection)).
Proof.
  assert (H : (2 <= List.length example_collection)%nat) by (simpl; lia).
  split; [exact H |].
  destruct (closestVectors_minimal example_collection H)
    as (i0 & j0 & Hv & Hcall & _).
  exists i0, j0. split; [exact Hv | exact Hcall].
Defined.

(** C6 as stated fails: among ["0.0.0.0/1"], ["128.0.0.0/1"] and
    ["0.0.0.0/2"] the selector returns the first two, whose exact distance
    is [2^32], although the first and the third are only [2^30] apart. *)
Lemma closestVectors_not_exact_minimum :
  closestVectors [v_0_0_0_0_1; v_128_0_0_0_1; v_0_0_0_0_2] =
    (v_0_0_0_0_1, v_128_0_0_0_1, None, [v_0_0_0_0_2]) /\
  exact_distance v_0_0_0_0_1 v_128_0_0_0_1 = 2 ^ 32 /\
  exact_distance v_0_0_0_0_1 v_0_0_0_0_2 = 2 ^ 30 /\
  ~ exact_distance v_0_0_0_0_1 v_128_0_0_0_1
      <= exact_distance v_0_0_0_0_1 v_0_0_0_0_2.
Proof.
  repeat split; try (vm_compute; reflexivity).
  vm_compute. intros H. now apply H.
Qed.

(** C7 (as amended). For two intervals whose first addresses and whose
    last addresses are each less than [2^31] apart, [distance A B] is the
    exact sum [|A.first - B.first| + |A.last - B.last|], each difference
    being the larger field less the smaller. Nothing is said of larger
    differences. *)
Theorem distance_exact_small (A B : IPv4Vector) :
  is_uint32 (FirstIP A) -> is_uint32 (LastIP A) ->
  is_uint32 (FirstIP B) -> is_uint32 (LastIP B) ->
  Z.abs (FirstIP A - FirstIP B) < 2 ^ 31 ->
  Z.abs (LastIP A - LastIP B) < 2 ^ 31 ->
  distance A B = exact_distance A B /\
  distance A B
  = Z.max (FirstIP A) (FirstIP B) - Z.min (FirstIP A) (FirstIP B)
    + (Z.max (LastIP A) (LastIP B) - Z.min (LastIP A) (LastIP B)) /\
  0 <= distance A B.
Proof.
  intros HFA HLA HFB HLB HdF HdL.
  assert (He : distance A B = exact_distance A B)
    by (apply distance_of_small_differences; unfold well_formed; auto).
  rewrite He. unfold exact_distance. repeat split; lia.
Qed.

Lemma distance_exact_small_witness :
  (Z.abs (FirstIP v_10_0_0_0_24 - FirstIP v_0_0_0_0_2) < 2 ^ 31 /\
   Z.abs (LastIP v_10_0_0_0_24 - LastIP v_0_0_0_0_2) < 2 ^ 31) /\
  distance v_10_0_0_0_24 v_0_0_0_0_2
  = exact_distance v_10_0_0_0_24 v_0_0_0_0_2 /\
  distance v_10_0_0_0_24 v_0_0_0_0_2
  = Z.max (FirstIP v_10_0_0_0_24) (FirstIP v_0_0_0_0_2)
    - Z.min (FirstIP v_10_0_0_0_24) (FirstIP v_0_0_0_0_2)
    + (Z.max (LastIP v_10_0_0_0_24) (LastIP v_0_0_0_0_2)
       - Z.min (LastIP v_10_0_0_0_24) (LastIP v_0_0_0_0_2)) /\
  0 <= distance v_10_0_0_0_24 v_0_0_0_0_2.
Proof.
  split; [split; vm_compute; reflexivity |].
  apply (distance_exact_small v_10_0_0_0_24 v_0_0_0_0_2);
    vm_compute; (reflexivity || (split; congruence)).
Defined.

(** C7 as stated fails: for ["0.0.0.0/1"] and ["128.0.0.0/1"] both
    differences are [2^31], the exact sum is [2^32], and [distance]
    returns [0]. (Whatever [uint32] the conversion of a negative float
    gives, the result is a [uint32] and so is not [2^32].) *)
Lemma distance_not_exact :
  parses "0.0.0.0/1" v_0_0_0_0_1 /\
  parses "128.0.0.0/1" v_128_0_0_0_1 /\
  Z.abs (FirstIP v_0_0_0_0_1 - FirstIP v_128_0_0_0_1) = 2 ^ 31 /\
  Z.abs (LastIP v_0_0_0_0_1 - LastIP v_128_0_0_0_1) = 2 ^ 31 /\
  exact_distance v_0_0_0_0_1 v_128_0_0_0_1 = 2 ^ 32 /\
  distance v_0_0_0_0_1 v_128_0_0_0_1 = 0 /\
  distance v_0_0_0_0_1 v_128_0_0_0_1
  <> exact_distance v_0_0_0_0_1 v_128_0_0_0_1.
Proof.
  repeat split; try (vm_compute; reflexivity).
  vm_compute. discriminate.
Qed.

(** C8 (as amended). A CIDR string in canonical text form - four decimal
    octets without leading zeros joined by dots, a slash, and a prefix
    length from 0 to 32 in decimal without leading zeros - whose address
    is aligned to the prefix boundary (no bit of the address lies outside
    the mask) is parsed to the interval that starts at that network
    address, and printing the interval gives the string back. *)
Theorem render_canonical (a b c d : byte) (n : Z) :
  0 <= n <= 32 ->
  Z.land (be32 a b c d) (mask32 n) = be32 a b c d ->
  exists v,
    cidrToVector (canonical a b c d n) = Returned (v, None) /\
    FirstIP v = Z.land (be32 a b c d) (mask32 n) /\
    LastIP v = FirstIP v + 2 ^ (32 - n) - 1 /\
    render v = canonical a b c d n.
Proof.
  intros Hn Haligned. eexists. split; [now apply cidrToVector_canonical |].
  cbn [FirstIP LastIP].
  split; [now rewrite Haligned |].
  split.
  { rewrite last_address by (apply be32_is_uint32 || exact Hn).
    assert (Hlow : Z.land (be32 a b c d) (Z.ones (32 - n)) = 0).
    { rewrite <- Haligned. apply Z.bits_inj'. intros m Hm.
      rewrite !Z.land_spec, mask32_bits, Z.bits_0 by lia.
      rewrite Z.testbit_ones_nonneg by lia.
      destruct (Z.leb_spec (32 - n) m), (Z.ltb_spec m (32 - n)); try lia;
        now rewrite ?andb_false_r, ?andb_false_l. }
    pose proof (Z.add_lor_land (be32 a b c d) (Z.ones (32 - n))) as Hadd.
    rewrite Hlow, Z.ones_equiv in Hadd. rewrite Z.ones_equiv. lia. }
  unfold render. cbn [FirstIP CIDR Mask].
  rewrite uint32ToIP_be32, Size_CIDRMask by exact Hn.
  apply canonical_split.
Qed.

Lemma render_canonical_witness :
  0 <= 23 <= 32 /\
  Z.land (be32 (byte_of_Z 10) (byte_of_Z 0) (byte_of_Z 0) (byte_of_Z 0))
    (mask32 23)
  = be32 (byte_of_Z 10) (byte_of_Z 0) (byte_of_Z 0) (byte_of_Z 0) /\
  canonical (byte_of_Z 10) (byte_of_Z 0) (byte_of_Z 0) (byte_of_Z 0) 23
  = "10.0.0.0/23"%string /\
  exists v,
    cidrToVector
      (canonical (byte_of_Z 10) (byte_of_Z 0) (byte_of_Z 0) (byte_of_Z 0) 23)
    = Returned (v, None) /\
    FirstIP v
    = Z.land (be32 (byte_of_Z 10) (byte_of_Z 0) (byte_of_Z 0) (byte_of_Z 0))
        (mask32 23) /\
    LastIP v = FirstIP v + 2 ^ (32 - 23) - 1 /\
    render v
    = canonical (byte_of_Z 10) (byte_of_Z 0) (byte_of_Z 0) (byte_of_Z 0) 23.
Proof.
  split; [lia |]. split; [reflexivity |]. split; [reflexivity |].
  apply (render_canonical (byte_of_Z 10) (byte_of_Z 0) (byte_of_Z 0) (byte_of_Z 0) 23);
    [lia | reflexivity].
Defined.

(** C8 as stated fails: ["10.0.0.0/024"] is accepted ([dtoi] reads the
    prefix length with its leading zero), its address is aligned to the
    prefix boundary, and it is printed as ["10.0.0.0/24"]. *)
Lemma render_drops_leading_zero :
  parses "10.0.0.0/024" v_10_0_0_0_24 /\
  Z.land (FirstIP v_10_0_0_0_24) (mask32 24) = FirstIP v_10_0_0_0_24 /\
  render v_10_0_0_0_24 = "10.0.0.0/24"%string /\
  render v_10_0_0_0_24 <> "10.0.0.0/024"%string.
Proof.
  repeat split; try (vm_compute; reflexivity).
  vm_compute. discriminate.
Qed.

(** C9. The parameter [maxIpNum] has no effect: two calls on the same
    input return the same output and the same error. *)
Theorem MergeCIDRs_ignores_maxIpNum (input : list string) (m1 m2 : Z) :
  MergeCIDRs input m1 = MergeCIDRs input m2.
Proof. reflexivity. Qed.

(** C10. There is a token with a slash that [net.ParseCIDR] accepts and
    that is not an IPv4 prefix, ["::1/128"]: [To4] of its address is nil,
    [binary.BigEndian.Uint32] panics on it, and so do [cidrToVector] and
    [MergeCIDRs]; no error is returned. *)
Theorem MergeCIDRs_panics_on_IPv6 :
  exists tok : string,
    strings_Contains tok "/" = true /\
    (exists ip ipNet,
        ParseCIDR tok = inl (ip, ipNet) /\ To4 ip = [] /\
        Binary.Uint32 (To4 ip) = Panicked) /\
    cidrToVector tok = Panicked /\
    forall maxIpNum, MergeCIDRs [tok] maxIpNum = Panicked.
Proof.
  exists "::1/128"%string. split; [reflexivity |]. split.
  - eexists. eexists. split; [vm_compute; reflexivity |].
    split; reflexivity.
  - split; [vm_compute; reflexivity |]. intros m. vm_compute. reflexivity.
Qed.

(** ** Further properties of the package *)

(** X1. Parse failure. When a token with a slash is rejected by the parser and
    every token with a slash before it parses, [MergeCIDRs] returns an
    empty output and that token's [ParseError]; literals met before it are
    dropped. *)
Theorem MergeCIDRs_returns_parse_error (pre post : list string) (t : string)
  (e : error) (maxIpNum : Z) (vs : list IPv4Vector) :
  Forall2 parses (cidr_tokens pre) vs ->
  strings_Contains t "/" = true ->
  fails_with t e ->
  MergeCIDRs (pre ++ t :: post) maxIpNum = Returned ([], Some e) /\
  e = ParseError "CIDR address" t.
Proof.
  intros Hvs Ht Hf. split.
  - unfold MergeCIDRs.
    now rewrite (MergeCIDRs_scan_rejects pre t post e [] [] vs Hvs Ht Hf).
  - now apply fails_with_error.
Qed.

Lemma MergeCIDRs_returns_parse_error_witness :
  MergeCIDRs
    (["office"%string; "10.0.0.0/24"%string]
       ++ "10.0.0.0/33"%string :: ["lab"%string])%list 0
  = Returned ([], Some (CIDR_error "10.0.0.0/33")) /\
  CIDR_error "10.0.0.0/33" = ParseError "CIDR address" "10.0.0.0/33".
Proof.
  apply (MergeCIDRs_returns_parse_error ["office"; "10.0.0.0/24"]%string
           ["lab"%string] "10.0.0.0/33" (CIDR_error "10.0.0.0/33") 0
           [v_10_0_0_0_24]).
  - repeat constructor; vm_compute; reflexivity.
  - reflexivity.
  - exists zeroVector. vm_compute. reflexivity.
Defined.

(** X2. What the parser guarantees of every interval it returns: [last] is
    [first] with the bits outside the mask set, hence [first <= last];
    [first] itself is the address as written. *)
Theorem cidrToVector_last (s : string) (v : IPv4Vector) :
  parses s v ->
  exists mask,
    Binary.Uint32 (Mask (CIDR v)) = Returned mask /\
    LastIP v = Z.lor (Z.land (FirstIP v) mask) (Z.lxor mask 4294967295) /\
    LastIP v = Z.lor (FirstIP v) (Z.lxor mask 4294967295) /\
    FirstIP v <= LastIP v.
Proof.
  intros H.
  destruct (cidrToVector_fields s v H) as (ip & ipNet & mask & _ & HF & HM & HL & HC).
  destruct (parses_is_uint32 s v H) as [HFr HLr].
  exists mask. rewrite HC.
  assert (Hlor : LastIP v = Z.lor (FirstIP v) (Z.lxor mask 4294967295)).
  { rewrite HL. apply Z.bits_inj'. intros m Hm.
    rewrite !Z.lor_spec, Z.land_spec, Z.lxor_spec.
    change 4294967295 with (Z.ones 32).
    rewrite Z.testbit_ones_nonneg by lia.
    destruct (Z.testbit (FirstIP v) m) eqn:Hf, (Z.testbit mask m) eqn:Hk,
      (Z.ltb_spec m 32); try reflexivity.
    rewrite (uint32_high_bits _ HFr m) in Hf by lia. discriminate. }
  repeat split; try assumption.
  rewrite Hlor.
  apply (Z.ldiff_le (FirstIP v)).
  - rewrite <- Hlor. unfold is_uint32 in HLr. lia.
  - apply Z.bits_inj'. intros m Hm.
    rewrite Z.ldiff_spec, Z.lor_spec, Z.bits_0.
    destruct (Z.testbit (FirstIP v) m); reflexivity.
Qed.

Lemma cidrToVector_last_witness :
  parses "10.0.0.0/24" v_10_0_0_0_24 /\
  exists mask,
    Binary.Uint32 (Mask (CIDR v_10_0_0_0_24)) = Returned mask /\
    LastIP v_10_0_0_0_24
    = Z.lor (Z.land (FirstIP v_10_0_0_0_24) mask) (Z.lxor mask 4294967295) /\
    LastIP v_10_0_0_0_24
    = Z.lor (FirstIP v_10_0_0_0_24) (Z.lxor mask 4294967295) /\
    FirstIP v_10_0_0_0_24 <= LastIP v_10_0_0_0_24.
Proof.
  assert (H : parses "10.0.0.0/24" v_10_0_0_0_24) by (vm_compute; reflexivity).
  split; [exact H |].
  exact (cidrToVector_last "10.0.0.0/24" v_10_0_0_0_24 H).
Defined.

(** X3. Symmetry of the metric. *)
Theorem distance_symmetric (A B : IPv4Vector) : distance A B = distance B A.
Proof.
  unfold distance. rewrite !Z.gtb_ltb.
  assert (Hsym : forall a b,
            (if b <? a then u32 (a - b) else u32 (b - a)) =
            (if a <? b then u32 (b - a) else u32 (a - b))).
  { intros a b.
    destruct (Z.ltb_spec b a), (Z.ltb_spec a b); try reflexivity; try lia.
    now replace a with b by lia. }
  now rewrite (Hsym (FirstIP A)), (Hsym (LastIP A)).
Qed.

(** X6. The metric in general, with the conversions of the gc compiler: the
    exact sum kept to 32 bits. *)
Theorem distance_mod (A B : IPv4Vector) :
  is_uint32 (FirstIP A) -> is_uint32 (LastIP A) ->
  is_uint32 (FirstIP B) -> is_uint32 (LastIP B) ->
  distance A B = exact_distance A B mod 2 ^ 32.
Proof.
  intros HFA HLA HFB HLB. unfold distance, exact_distance.
  rewrite !field_difference by assumption.
  unfold is_uint32 in *.
  rewrite !cast_round_trip by (unfold is_uint32; lia).
  reflexivity.
Qed.

Lemma distance_mod_witness :
  distance v_0_0_0_0_1 v_128_0_0_0_1
  = exact_distance v_0_0_0_0_1 v_128_0_0_0_1 mod 2 ^ 32.
Proof.
  apply (distance_mod v_0_0_0_0_1 v_128_0_0_0_1);
    vm_compute; split; congruence.
Defined.

(** The scenarios of the specification, evaluated: two adjacent /24, two
    far apart networks, and a prefix length out of range. *)
Theorem MergeCIDRs_scenarios :
  MergeCIDRs ["10.0.0.0/24"; "10.0.1.0/24"]%string 0
    = Returned (["10.0.0.0/23"]%string, None) /\
  MergeCIDRs ["192.168.0.0/24"; "10.0.0.0/24"]%string 0
    = Returned (["10.0.0.0/0"]%string, None) /\
  MergeCIDRs ["10.0.0.0/33"]%string 0
    = Returned ([], Some (ParseError "CIDR address" "10.0.0.0/33")).
Proof. repeat split; vm_compute; reflexivity. Qed.

(** The merged interval is printed from the smaller first address as it
    stands: merging ["10.0.1.0/24"] and ["10.0.2.0/24"] prints
    ["10.0.1.0/22"], whose address is not on a /22 boundary. *)
Theorem MergeCIDRs_unaligned_output :
  MergeCIDRs ["10.0.1.0/24"; "10.0.2.0/24"]%string 0
    = Returned (["10.0.1.0/22"]%string, None) /\
  parses "10.0.1.0/22" (vector_of 10 0 1 0 22) /\
  Z.land (FirstIP (vector_of 10 0 1 0 22)) (mask32 22)
    <> FirstIP (vector_of 10 0 1 0 22).
Proof.
  repeat split; try (vm_compute; reflexivity).
  vm_compute. discriminate.
Qed.

(** * More of the package *)

(** ** countDifferentBits *)
Section DifferentBits.

(** When the loop of [countDifferentBits] returns a count that is not
    zero, the two words differ at the bit just below it. *)
Lemma countDifferentBits_loop_differs (x y : Z) (n : nat) :
  forall i : nat,
    (n + i = 32)%nat ->
    let c := countDifferentBits_loop (Fmt.Sprintf_032b x) (Fmt.Sprintf_032b y) n i in
    c <> 0 -> Z.testbit x (c - 1) <> Z.testbit y (c - 1).
Proof.
  induction n as [| n IH]; intros i Hi; cbn [countDifferentBits_loop].
  - intros H. now contradiction H.
  - rewrite !index_bit by lia. rewrite bit_char_eqb.
    destruct (Bool.eqb _ _) eqn:Heq; cbn [negb].
    + apply IH. lia.
    + intros _. replace (32 - Z.of_nat i - 1) with (31 - Z.of_nat i) by lia.
      intros Hbits. rewrite Hbits, eqb_reflx in Heq. discriminate.
Qed.

Lemma countDifferentBits_differs (x y : Z) :
  countDifferentBits x y <> 0 ->
  Z.testbit x (countDifferentBits x y - 1) <> Z.testbit y (countDifferentBits x y - 1).
Proof.
  unfold countDifferentBits.
  apply (countDifferentBits_loop_differs x y 32 0). reflexivity.
Qed.

Lemma countDifferentBits_zero (x y : Z) :
  is_uint32 x -> is_uint32 y ->
  (countDifferentBits x y = 0 <-> x = y).
Proof.
  intros Hx Hy.
  destruct (countDifferentBits_spec x y) as [Hc Hbits]. split.
  - intros H0. rewrite H0 in Hbits.
    apply Z.bits_inj'. intros m Hm.
    destruct (Z_lt_le_dec m 32) as [Hlt | Hge].
    + apply Hbits. lia.
    + now rewrite !uint32_high_bits by assumption.
  - intros ->.
    destruct (Z.eq_dec (countDifferentBits y y) 0) as [H0 | Hne]; [exact H0 |].
    now destruct (countDifferentBits_differs y y Hne).
Qed.

(** Two bits that differ make a bit of the exclusive or. *)
Lemma lxor_bit (x y m : Z) :
  Z.testbit (Z.lxor x y) m = negb (Bool.eqb (Z.testbit x m) (Z.testbit y m)).
Proof.
  rewrite Z.lxor_spec. now destruct (Z.testbit x m), (Z.testbit y m).
Qed.

Lemma countDifferentBits_log2 (x y : Z) :
  is_uint32 x -> is_uint32 y -> x <> y ->
  countDifferentBits x y = Z.log2 (Z.lxor x y) + 1.
Proof.
  intros Hx Hy Hne.
  destruct (countDifferentBits_spec x y) as [Hc Hbits].
  assert (Hnz : countDifferentBits x y <> 0).
  { intros H0. apply Hne. now apply (countDifferentBits_zero x y Hx Hy). }
  pose proof (countDifferentBits_differs x y Hnz) as Hdiff.
  set (c := countDifferentBits x y) in *.
  assert (Hpos : 0 <= Z.lxor x y).
  { apply Z.lxor_nonneg. unfold is_uint32 in *. lia. }
  assert (Htop : Z.testbit (Z.lxor x y) (c - 1) = true).
  { rewrite lxor_bit. destruct (Bool.eqb _ _) eqn:He; [| reflexivity].
    apply eqb_prop in He. contradiction. }
  assert (Habove : forall m, c <= m -> Z.testbit (Z.lxor x y) m = false).
  { intros m Hm. rewrite lxor_bit.
    destruct (Z_lt_le_dec m 32) as [Hlt | Hge].
    - rewrite (Hbits m) by lia. now rewrite eqb_reflx.
    - now rewrite !uint32_high_bits by assumption. }
  assert (Hlxor : 0 < Z.lxor x y).
  { destruct (Z.eq_dec (Z.lxor x y) 0) as [H0 | H0]; [| lia].
    rewrite H0, Z.bits_0 in Htop. discriminate. }
  pose proof (Z.bit_log2 _ Hlxor) as Hlog.
  destruct (Z_lt_le_dec (Z.log2 (Z.lxor x y)) (c - 1)) as [Hlt | Hge].
  - rewrite (Z.bits_above_log2 _ _ Hpos Hlt) in Htop. discriminate.
  - destruct (Z_lt_le_dec (Z.log2 (Z.lxor x y)) c) as [Hlt' | Hge']; [lia |].
    rewrite (Habove _ Hge') in Hlog. discriminate.
Qed.

End DifferentBits.

(** X7. [countDifferentBits] is the number of bits from the lowest up to and
    including the highest bit at which the two words differ: [0] exactly
    for equal words, otherwise one more than the position of the highest
    bit of their exclusive or. It does not depend on the order of its
    arguments, and above that many bits the two words are the same. *)
Theorem countDifferentBits_highest_difference (x y : Z) :
  is_uint32 x -> is_uint32 y ->
  0 <= countDifferentBits x y <= 32 /\
  (countDifferentBits x y = 0 <-> x = y) /\
  (x <> y -> countDifferentBits x y = Z.log2 (Z.lxor x y) + 1) /\
  countDifferentBits x y = countDifferentBits y x /\
  x / 2 ^ countDifferentBits x y = y / 2 ^ countDifferentBits x y.
Proof.
  intros Hx Hy.
  destruct (countDifferentBits_spec x y) as [Hc Hbits].
  split; [exact Hc |].
  split; [now apply countDifferentBits_zero |].
  split; [now apply countDifferentBits_log2 |].
  split.
  - destruct (Z.eq_dec x y) as [-> | Hne]; [reflexivity |].
    rewrite (countDifferentBits_log2 x y), (countDifferentBits_log2 y x)
      by (assumption || congruence).
    now rewrite Z.lxor_comm.
  - apply Z.bits_inj'. intros m Hm.
    rewrite !Z.div_pow2_bits by lia.
    destruct (Z_lt_le_dec (m + countDifferentBits x y) 32) as [Hlt | Hge].
    + apply Hbits. lia.
    + now rewrite !uint32_high_bits by assumption.
Qed.

Lemma countDifferentBits_highest_difference_witness :
  (is_uint32 167772160 /\ is_uint32 167772671) /\
  countDifferentBits 167772160 167772671 = 9 /\
  0 <= countDifferentBits 167772160 167772671 <= 32 /\
  (countDifferentBits 167772160 167772671 = 0 <-> 167772160 = 167772671) /\
  (167772160 <> 167772671 ->
   countDifferentBits 167772160 167772671
   = Z.log2 (Z.lxor 167772160 167772671) + 1) /\
  countDifferentBits 167772160 167772671
  = countDifferentBits 167772671 167772160 /\
  167772160 / 2 ^ countDifferentBits 167772160 167772671
  = 167772671 / 2 ^ countDifferentBits 167772160 167772671.
Proof.
  assert (H1 : is_uint32 167772160) by (vm_compute; split; congruence).
  assert (H2 : is_uint32 167772671) by (vm_compute; split; congruence).
  split; [split; assumption |]. split; [vm_compute; reflexivity |].
  exact (countDifferentBits_highest_difference 167772160 167772671 H1 H2).
Defined.

(** ** mergeIPNets: when it is exact, and that it is tight *)
Section Supernet.

Lemma countDifferentBits_unique (x y k : Z) :
  is_uint32 x -> is_uint32 y -> 0 < k <= 32 ->
  Z.testbit x (k - 1) <> Z.testbit y (k - 1) ->
  (forall m, k <= m < 32 -> Z.testbit x m = Z.testbit y m) ->
  countDifferentBits x y = k.
Proof.
  intros Hx Hy Hk Hdiff Hagree.
  destruct (countDifferentBits_spec x y) as [Hc Hbits].
  destruct (Z_lt_le_dec (k - 1) (countDifferentBits x y)) as [Hlo | Hlo].
  - destruct (Z_le_gt_dec (countDifferentBits x y) k) as [Hhi | Hhi]; [lia |].
    assert (Hnz : countDifferentBits x y <> 0) by lia.
    destruct (countDifferentBits_differs x y Hnz). apply Hagree. lia.
  - destruct Hdiff. apply Hbits. lia.
Qed.

(** A word that is a multiple of [2^k], with its low [k] bits set. *)
Lemma lor_ones_aligned (x k : Z) :
  0 <= k -> x mod 2 ^ k = 0 -> Z.lor x (Z.ones k) = x + 2 ^ k - 1.
Proof.
  intros Hk Hx.
  assert (Hland : Z.land x (Z.ones k) = 0) by now rewrite Z.land_ones.
  rewrite <- (Z.lxor_lor _ _ Hland), <- (Z.add_nocarry_lxor _ _ Hland).
  rewrite Z.ones_equiv. lia.
Qed.

Lemma aligned_low_bits (x k m : Z) :
  x mod 2 ^ k = 0 -> 0 <= m < k -> Z.testbit x m = false.
Proof.
  intros Hx Hm.
  rewrite <- (Z.mod_pow2_bits_low x k m) by lia.
  rewrite Hx. apply Z.bits_0.
Qed.

(** The span of an aligned block: its two ends differ in exactly the low
    [k] bits. *)
Lemma countDifferentBits_block (x k : Z) :
  is_uint32 x -> 0 <= k <= 32 -> x mod 2 ^ k = 0 ->
  is_uint32 (x + 2 ^ k - 1) ->
  countDifferentBits x (x + 2 ^ k - 1) = k.
Proof.
  intros Hx Hk Hal Hhi.
  destruct (Z.eq_dec k 0) as [-> | Hk0].
  - replace (x + 2 ^ 0 - 1) with x by (simpl; lia).
    now apply countDifferentBits_zero.
  - rewrite <- (lor_ones_aligned x k) in * by (lia || assumption).
    apply countDifferentBits_unique; try assumption; try lia.
    + rewrite Z.lor_spec, Z.testbit_ones_nonneg by lia.
      rewrite (aligned_low_bits x k) by (assumption || lia).
      replace (k - 1 <? k) with true by (symmetry; apply Z.ltb_lt; lia).
      discriminate.
    + intros m Hm. rewrite Z.lor_spec, Z.testbit_ones_nonneg by lia.
      replace (m <? k) with false by (symmetry; apply Z.ltb_ge; lia).
      now rewrite orb_false_r.
Qed.

Lemma minFirst_min (A B : IPv4Vector) :
  minFirst A B = Z.min (FirstIP A) (FirstIP B).
Proof.
  unfold minFirst. rewrite Z.gtb_ltb.
  destruct (Z.ltb_spec (FirstIP B) (FirstIP A)); lia.
Qed.

Lemma maxLast_max (A B : IPv4Vector) :
  maxLast A B = Z.max (LastIP A) (LastIP B).
Proof.
  unfold maxLast. rewrite Z.gtb_ltb.
  destruct (Z.ltb_spec (LastIP B) (LastIP A)); lia.
Qed.

(** Two words of one aligned block of [2^k] addresses have the same bits
    from position [k] up. *)
Lemma same_block_bits (base x k m : Z) :
  0 <= k -> base mod 2 ^ k = 0 -> base <= x <= base + 2 ^ k - 1 ->
  k <= m -> Z.testbit x m = Z.testbit base m.
Proof.
  intros Hk Hal Hx Hm.
  assert (Hpow : 0 < 2 ^ k) by (apply Z.pow_pos_nonneg; lia).
  assert (Hq : x / 2 ^ k = base / 2 ^ k).
  { symmetry. apply (Z.div_unique x (2 ^ k) (base / 2 ^ k) (x - base)); [lia |].
    pose proof (Z.div_mod base (2 ^ k) ltac:(lia)) as Hdm. lia. }
  replace m with (m - k + k) by lia.
  rewrite <- !Z.div_pow2_bits by lia. now rewrite Hq.
Qed.

End Supernet.

(** X4. Exact merge. When the span from the smaller first address to the
    larger last address is itself a block of [2^k] addresses starting on
    a multiple of [2^k], [mergeIPNets] returns exactly that block, with
    prefix length [32 - k]: nothing outside the span is covered. *)
Theorem mergeIPNets_exact (A B : IPv4Vector) (k : Z) :
  is_uint32 (FirstIP A) -> is_uint32 (LastIP A) ->
  is_uint32 (FirstIP B) -> is_uint32 (LastIP B) ->
  0 <= k <= 32 ->
  Z.min (FirstIP A) (FirstIP B) mod 2 ^ k = 0 ->
  Z.max (LastIP A) (LastIP B) = Z.min (FirstIP A) (FirstIP B) + 2 ^ k - 1 ->
  exists out,
    mergeIPNets A B = Returned (out, None) /\
    FirstIP out = Z.min (FirstIP A) (FirstIP B) /\
    LastIP out = Z.max (LastIP A) (LastIP B) /\
    fst (Size (Mask (CIDR out))) = 32 - k.
Proof.
  intros HFA HLA HFB HLB Hk Hal Hspan.
  exists (merged A B). split; [now apply mergeIPNets_returns |].
  rewrite <- minFirst_min, <- maxLast_max in *.
  pose proof (minFirst_is_uint32 A B HFA HFB) as Hmin.
  pose proof (maxLast_is_uint32 A B HLA HLB) as Hmax.
  assert (Hc : countDifferentBits (minFirst A B) (maxLast A B) = k).
  { rewrite Hspan. apply countDifferentBits_block; try assumption.
    now rewrite <- Hspan. }
  cbn [merged FirstIP LastIP CIDR Mask]. rewrite Hc.
  split; [reflexivity |]. split.
  - rewrite Hspan. apply lor_ones_aligned; [lia | exact Hal].
  - apply Size_CIDRMask. lia.
Qed.

Lemma mergeIPNets_exact_witness :
  (0 <= 9 <= 32 /\
   Z.min (FirstIP (vector_of 10 0 0 0 24)) (FirstIP (vector_of 10 0 1 0 24))
     mod 2 ^ 9 = 0 /\
   Z.max (LastIP (vector_of 10 0 0 0 24)) (LastIP (vector_of 10 0 1 0 24))
   = Z.min (FirstIP (vector_of 10 0 0 0 24)) (FirstIP (vector_of 10 0 1 0 24))
     + 2 ^ 9 - 1) /\
  exists out,
    mergeIPNets (vector_of 10 0 0 0 24) (vector_of 10 0 1 0 24)
    = Returned (out, None) /\
    FirstIP out
    = Z.min (FirstIP (vector_of 10 0 0 0 24)) (FirstIP (vector_of 10 0 1 0 24)) /\
    LastIP out
    = Z.max (LastIP (vector_of 10 0 0 0 24)) (LastIP (vector_of 10 0 1 0 24)) /\
    fst (Size (Mask (CIDR out))) = 32 - 9.
Proof.
  split; [repeat split; vm_compute; congruence |].
  apply (mergeIPNets_exact (vector_of 10 0 0 0 24) (vector_of 10 0 1 0 24) 9);
    vm_compute; (reflexivity || (split; congruence)).
Defined.

(** X5. Tight merge. Whatever aligned block of [2^k] addresses holds the
    smaller first address and the larger last address of [A] and [B], the
    interval [mergeIPNets] returns lies inside it and its prefix length is
    at least [32 - k]: no shorter prefix than needed is chosen. *)
Theorem mergeIPNets_tight (A B : IPv4Vector) (base k : Z) :
  is_uint32 (FirstIP A) -> is_uint32 (LastIP A) ->
  is_uint32 (FirstIP B) -> is_uint32 (LastIP B) ->
  0 <= k <= 32 -> is_uint32 base -> base mod 2 ^ k = 0 ->
  base <= Z.min (FirstIP A) (FirstIP B) ->
  Z.min (FirstIP A) (FirstIP B) <= base + 2 ^ k - 1 ->
  base <= Z.max (LastIP A) (LastIP B) <= base + 2 ^ k - 1 ->
  exists out,
    mergeIPNets A B = Returned (out, None) /\
    base <= FirstIP out /\
    LastIP out <= base + 2 ^ k - 1 /\
    32 - k <= fst (Size (Mask (CIDR out))).
Proof.
  intros HFA HLA HFB HLB Hk Hbase Hal Hlo Hlo' Hhi.
  exists (merged A B). split; [now apply mergeIPNets_returns |].
  rewrite <- minFirst_min, <- maxLast_max in *.
  pose proof (minFirst_is_uint32 A B HFA HFB) as Hmin.
  pose proof (maxLast_is_uint32 A B HLA HLB) as Hmax.
  destruct (countDifferentBits_spec (minFirst A B) (maxLast A B)) as [Hc Hbits].
  assert (Hck : countDifferentBits (minFirst A B) (maxLast A B) <= k).
  { destruct (Z.eq_dec (countDifferentBits (minFirst A B) (maxLast A B)) 0)
      as [H0 | Hnz]; [lia |].
    destruct (Z_le_gt_dec (countDifferentBits (minFirst A B) (maxLast A B)) k)
      as [Hle | Hgt]; [exact Hle |].
    destruct (countDifferentBits_differs _ _ Hnz).
    rewrite (same_block_bits base (minFirst A B) k) by lia.
    rewrite (same_block_bits base (maxLast A B) k) by lia.
    reflexivity. }
  cbn [merged FirstIP LastIP CIDR Mask].
  set (c := countDifferentBits (minFirst A B) (maxLast A B)) in *.
  split; [lia |]. split.
  - rewrite <- (lor_ones_aligned base k) by (lia || assumption).
    apply below_lor_ones; try assumption; try lia.
    + now apply lor_ones_is_uint32.
    + intros m Hm. rewrite Z.lor_spec, Z.testbit_ones_nonneg by lia.
      replace (m <? c) with false by (symmetry; apply Z.ltb_ge; lia).
      rewrite orb_false_r. symmetry.
      apply (same_block_bits base (minFirst A B) k); lia.
  - rewrite Size_CIDRMask by lia. lia.
Qed.

Lemma mergeIPNets_tight_witness :
  exists out,
    mergeIPNets (vector_of 10 0 1 0 24) (vector_of 10 0 2 0 24)
    = Returned (out, None) /\
    167772160 <= FirstIP out /\
    LastIP out <= 167772160 + 2 ^ 10 - 1 /\
    32 - 10 <= fst (Size (Mask (CIDR out))).
Proof.
  apply (mergeIPNets_tight (vector_of 10 0 1 0 24) (vector_of 10 0 2 0 24)
           167772160 10);
    vm_compute; (reflexivity || (split; congruence) || congruence).
Defined.

(** X8. [mergeIPNets] does not depend on the order of its two arguments. *)
Theorem mergeIPNets_commutative (A B : IPv4Vector) :
  mergeIPNets A B = mergeIPNets B A.
Proof.
  unfold mergeIPNets.
  assert (Hmin : (if FirstIP A >? FirstIP B then FirstIP B else FirstIP A)
               = (if FirstIP B >? FirstIP A then FirstIP A else FirstIP B)).
  { rewrite !Z.gtb_ltb.
    destruct (Z.ltb_spec (FirstIP B) (FirstIP A)),
      (Z.ltb_spec (FirstIP A) (FirstIP B)); lia. }
  assert (Hmax : (if LastIP A >? LastIP B then LastIP A else LastIP B)
               = (if LastIP B >? LastIP A then LastIP B else LastIP A)).
  { rewrite !Z.gtb_ltb.
    destruct (Z.ltb_spec (LastIP B) (LastIP A)),
      (Z.ltb_spec (LastIP A) (LastIP B)); lia. }
  now rewrite Hmin, Hmax.
Qed.

(** ** Printing addresses and reading them back *)
Section Printing.

Lemma uint32ToIP_dotted (x : Z) :
  uint32ToIP x
  = dotted (byte_of_Z (Z.shiftr x 24)) (byte_of_Z (Z.shiftr x 16))
      (byte_of_Z (Z.shiftr x 8)) (byte_of_Z x) EmptyString.
Proof.
  unfold uint32ToIP, dotted, dec. now rewrite append_nil_r.
Qed.

Lemma IP_String_binaryToIP (x : Z) : IP_String (binaryToIP x) = uint32ToIP x.
Proof.
  unfold binaryToIP.
  change (IP_String (IPv4 (byte_of_Z (Z.shiftr x 24)) (byte_of_Z (Z.shiftr x 16))
                       (byte_of_Z (Z.shiftr x 8)) (byte_of_Z x)))
    with (string4 [byte_of_Z (Z.shiftr x 24); byte_of_Z (Z.shiftr x 16);
                   byte_of_Z (Z.shiftr x 8); byte_of_Z x]).
  reflexivity.
Qed.

Lemma render_merged (A B : IPv4Vector) :
  render (merged A B)
  = canonical (byte_of_Z (Z.shiftr (minFirst A B) 24))
      (byte_of_Z (Z.shiftr (minFirst A B) 16))
      (byte_of_Z (Z.shiftr (minFirst A B) 8)) (byte_of_Z (minFirst A B))
      (32 - countDifferentBits (minFirst A B) (maxLast A B)).
Proof.
  destruct (countDifferentBits_spec (minFirst A B) (maxLast A B)) as [Hc _].
  unfold render. cbn [merged FirstIP CIDR Mask].
  rewrite uint32ToIP_dotted, Size_CIDRMask by lia.
  apply canonical_split.
Qed.

Lemma merged_parses (A B : IPv4Vector) :
  is_uint32 (FirstIP A) -> is_uint32 (FirstIP B) ->
  cidrToVector (render (merged A B)) = Returned (merged A B, None).
Proof.
  intros HFA HFB.
  pose proof (minFirst_is_uint32 A B HFA HFB) as Hmin.
  destruct (countDifferentBits_spec (minFirst A B) (maxLast A B)) as [Hc _].
  rewrite render_merged, cidrToVector_canonical by lia.
  rewrite be32_of_bytes by exact Hmin.
  rewrite last_address by (assumption || lia).
  unfold merged, binaryToIP.
  now replace (32 - (32 - countDifferentBits (minFirst A B) (maxLast A B)))
    with (countDifferentBits (minFirst A B) (maxLast A B)) by lia.
Qed.

End Printing.

(** X10. The two printers of the package agree, and what they print is read
    back: for a [uint32] [x], [binaryToIP x] prints as [uint32ToIP x], its
    four bytes give [x] again, and the parser returns [x] as the first
    address of [uint32ToIP x] followed by a slash and any prefix length
    from 0 to 32. In particular [uint32ToIP] is injective on [uint32]. *)
Theorem uint32ToIP_round_trip (x : Z) (n : Z) :
  is_uint32 x -> 0 <= n <= 32 ->
  IP_String (binaryToIP x) = uint32ToIP x /\
  Binary.Uint32 (To4 (binaryToIP x)) = Returned x /\
  (exists v,
      cidrToVector (Sprintf_s_slash_d (uint32ToIP x) n) = Returned (v, None) /\
      FirstIP v = x /\ fst (Size (Mask (CIDR v))) = n) /\
  (forall y, is_uint32 y -> uint32ToIP x = uint32ToIP y -> x = y).
Proof.
  intros Hx Hn.
  split; [apply IP_String_binaryToIP |]. split.
  { unfold binaryToIP. rewrite To4_IPv4. cbn [Binary.Uint32].
    f_equal. now apply be32_of_bytes. }
  split.
  { rewrite uint32ToIP_dotted, canonical_split.
    eexists. split; [now apply cidrToVector_canonical |].
    cbn [FirstIP CIDR Mask]. split; [now apply be32_of_bytes |].
    now apply Size_CIDRMask. }
  intros y Hy Heq. rewrite !uint32ToIP_dotted in Heq.
  assert (Hp : Netip.ParseAddr (uint32ToIP x) = Netip.ParseAddr (uint32ToIP y))
    by (now rewrite !uint32ToIP_dotted, Heq).
  rewrite !uint32ToIP_dotted, !ParseAddr_dotted in Hp.
  injection Hp as H3 H2 H1 H0.
  rewrite <- (be32_of_bytes x Hx), <- (be32_of_bytes y Hy).
  now rewrite H3, H2, H1, H0.
Qed.

Lemma uint32ToIP_round_trip_witness :
  uint32ToIP 3232235777 = "192.168.1.1"%string /\
  IP_String (binaryToIP 3232235777) = uint32ToIP 3232235777 /\
  Binary.Uint32 (To4 (binaryToIP 3232235777)) = Returned 3232235777 /\
  (exists v,
      cidrToVector (Sprintf_s_slash_d (uint32ToIP 3232235777) 16)
      = Returned (v, None) /\
      FirstIP v = 3232235777 /\ fst (Size (Mask (CIDR v))) = 16) /\
  (forall y, is_uint32 y ->
     uint32ToIP 3232235777 = uint32ToIP y -> 3232235777 = y).
Proof.
  split; [vm_compute; reflexivity |].
  apply (uint32ToIP_round_trip 3232235777 16); vm_compute; split; congruence.
Defined.

(** X9. What [mergeIPNets] returns is a fixed point of printing and parsing:
    the string [MergeCIDRs] prints for it is accepted by [cidrToVector],
    which returns the same interval again. *)
Theorem mergeIPNets_prints_and_parses (A B : IPv4Vector) :
  is_uint32 (FirstIP A) -> is_uint32 (FirstIP B) ->
  exists out,
    mergeIPNets A B = Returned (out, None) /\
    cidrToVector (render out) = Returned (out, None) /\
    0 <= fst (Size (Mask (CIDR out))) <= 32.
Proof.
  intros HFA HFB. exists (merged A B).
  split; [now apply mergeIPNets_returns |].
  split; [now apply merged_parses |].
  destruct (countDifferentBits_spec (minFirst A B) (maxLast A B)) as [Hc _].
  cbn [merged CIDR Mask]. rewrite Size_CIDRMask by lia. lia.
Qed.

Lemma mergeIPNets_prints_and_parses_witness :
  exists out,
    mergeIPNets v_192_168_0_0_24 v_10_0_0_0_24 = Returned (out, None) /\
    cidrToVector (render out) = Returned (out, None) /\
    0 <= fst (Size (Mask (CIDR out))) <= 32.
Proof.
  apply (mergeIPNets_prints_and_parses v_192_168_0_0_24 v_10_0_0_0_24);
    vm_compute; split; congruence.
Defined.

(** ** The selector keeps every interval *)
Section Removal.

Context {A : Type}.

Lemma remove_at_cons (a : A) (s : list A) (i : nat) :
  remove_at (S i) (a :: s) = a :: remove_at i s.
Proof. reflexivity. Qed.

Lemma remove_at_perm (d : A) (s : list A) :
  forall i, (i < List.length s)%nat ->
    Permutation s (nth i s d :: remove_at i s).
Proof.
  induction s as [| a s IH]; intros i Hi; [cbn in Hi; lia |].
  destruct i as [| i].
  - cbn. apply Permutation_refl.
  - rewrite remove_at_cons. cbn [nth].
    apply Permutation_trans with (a :: nth i s d :: remove_at i s).
    + apply perm_skip, IH. cbn in Hi. lia.
    + apply perm_swap.
Qed.

Lemma nth_remove_at_before (d : A) (s : list A) :
  forall i j, (i < j)%nat -> nth i (remove_at j s) d = nth i s d.
Proof.
  induction s as [| a s IH]; intros i j Hij.
  - unfold remove_at. rewrite firstn_nil, skipn_nil. cbn. now destruct i.
  - destruct j as [| j]; [lia |]. rewrite remove_at_cons.
    destruct i as [| i]; [reflexivity |]. cbn [nth]. apply IH. lia.
Qed.

End Removal.

(** X11. [closestVectors] loses nothing and invents nothing: on a slice of at
    least two intervals, the two it returns together with the slice it
    leaves are a rearrangement of the slice it was given, and the slice it
    leaves keeps the order of the intervals that stay. *)
Theorem closestVectors_keeps_all (l : list IPv4Vector) :
  (2 <= List.length l)%nat ->
  exists c1 c2 rest,
    closestVectors l = (c1, c2, None, rest) /\
    Permutation l (c1 :: c2 :: rest) /\
    List.length rest = (List.length l - 2)%nat /\
    exists i j,
      (i < j < List.length l)%nat /\
      c1 = nth i l zeroVector /\ c2 = nth j l zeroVector /\
      rest = firstn i l ++ firstn (j - i - 1) (skipn (i + 1) l) ++ skipn (j + 1) l.
Proof.
  intros Hlen.
  destruct (closestVectors_spec l Hlen) as (i & j & Hij & Hcall & _).
  exists (nth i l zeroVector), (nth j l zeroVector),
    (remove_at i (remove_at j l)).
  split; [exact Hcall |]. split.
  - apply Permutation_trans
      with (nth j l zeroVector :: nth i l zeroVector :: remove_at i (remove_at j l));
      [| apply perm_swap].
    apply Permutation_trans with (nth j l zeroVector :: remove_at j l).
    + apply remove_at_perm. lia.
    + apply perm_skip.
      rewrite <- (nth_remove_at_before zeroVector l i j) by lia.
      apply remove_at_perm. rewrite remove_at_length by lia. lia.
  - split.
    + rewrite remove_at_length; rewrite remove_at_length; lia.
    + exists i, j. repeat split; try lia.
      unfold remove_at.
      rewrite firstn_app, firstn_firstn, length_firstn.
      replace (Nat.min i j) with i by lia.
      replace (i - Nat.min j (List.length l))%nat with 0%nat by lia.
      rewrite firstn_O, app_nil_r.
      rewrite skipn_app, length_firstn, skipn_firstn_comm.
      replace (i + 1 - Nat.min j (List.length l))%nat with 0%nat by lia.
      rewrite skipn_O.
      replace (j - (i + 1))%nat with (j - i - 1)%nat by lia.
      reflexivity.
Qed.

Lemma closestVectors_keeps_all_witness :
  (2 <= List.length example_collection)%nat /\
  exists c1 c2 rest,
    closestVectors example_collection = (c1, c2, None, rest) /\
    Permutation example_collection (c1 :: c2 :: rest) /\
    List.length rest = (List.length example_collection - 2)%nat /\
    exists i j,
      (i < j < List.length example_collection)%nat /\
      c1 = nth i example_collection zeroVector /\
      c2 = nth j example_collection zeroVector /\
      rest = firstn i example_collection
             ++ firstn (j - i - 1) (skipn (i + 1) example_collection)
             ++ skipn (j + 1) example_collection.
Proof.
  assert (H : (2 <= List.length example_collection)%nat) by (simpl; lia).
  split; [exact H |].
  exact (closestVectors_keeps_all example_collection H).
Defined.

(** ** The three outcomes of MergeCIDRs *)
Section Outcomes.

(** What the first loop of [MergeCIDRs] did, read off its outcome. *)
Lemma MergeCIDRs_scan_inv (input : list string) :
  forall (out : list string) (vectors : list IPv4Vector),
    match MergeCIDRs_scan input out vectors with
    | Returned (inl (out', vectors')) =>
        exists vs,
          Forall2 parses (cidr_tokens input) vs /\
          out' = out ++ literals input /\ vectors' = vectors ++ vs
    | Returned (inr e) =>
        exists t, In t input /\ strings_Contains t "/" = true /\ fails_with t e
    | Panicked =>
        exists t,
          In t input /\ strings_Contains t "/" = true /\
          cidrToVector t = Panicked
    end.
Proof.
  induction input as [| t rest IH]; intros out vectors;
    cbn [MergeCIDRs_scan literals cidr_tokens filter].
  - exists []. split; [constructor |]. now rewrite !app_nil_r.
  - destruct (strings_Contains t "/") eqn:Ht; cbn [negb].
    + destruct (cidrToVector t) as [[v [e |]] |] eqn:Hc.
      * exists t. repeat split; [now left | exact Ht | now exists v].
      * specialize (IH out (vectors ++ [v])).
        destruct (MergeCIDRs_scan rest out (vectors ++ [v]))
          as [[[out' vectors'] | e] |].
        -- destruct IH as (vs & Hvs & -> & ->).
           exists (v :: vs). repeat split.
           ++ now constructor.
           ++ now rewrite <- app_assoc.
        -- destruct IH as (t' & Hin & Ht' & Hf).
           exists t'. repeat split; [now right | exact Ht' | exact Hf].
        -- destruct IH as (t' & Hin & Ht' & Hp).
           exists t'. repeat split; [now right | exact Ht' | exact Hp].
      * exists t. repeat split; [now left | exact Ht | exact Hc].
    + specialize (IH (out ++ [t]) vectors).
      destruct (MergeCIDRs_scan rest (out ++ [t]) vectors)
        as [[[out' vectors'] | e] |].
      * destruct IH as (vs & Hvs & -> & ->).
        exists vs. repeat split; [exact Hvs |]. now rewrite <- app_assoc.
      * destruct IH as (t' & Hin & Ht' & Hf).
        exists t'. repeat split; [now right | exact Ht' | exact Hf].
      * destruct IH as (t' & Hin & Ht' & Hp).
        exists t'. repeat split; [now right | exact Ht' | exact Hp].
Qed.

Lemma Forall2_parses_first (ts : list string) (vs : list IPv4Vector) :
  Forall2 parses ts vs -> Forall (fun v => is_uint32 (FirstIP v)) vs.
Proof.
  induction 1 as [| t v ts vs Hp _ IH]; constructor; [| exact IH].
  now destruct (parses_is_uint32 t v Hp).
Qed.

(** The whole of [MergeCIDRs], read off its outcome. *)
Lemma MergeCIDRs_inv (input : list string) (maxIpNum : Z) :
  match MergeCIDRs input maxIpNum with
  | Returned (out, None) =>
      exists vs i j,
        Forall2 parses (cidr_tokens input) vs /\
        (i < j < List.length vs)%nat /\
        out = literals input
              ++ map render (remove_at i (remove_at j vs))
              ++ [render (merged (nth i vs zeroVector) (nth j vs zeroVector))]
  | Returned (out, Some e) =>
      out = [] /\
      ((e = InsufficientVectorsError /\
        exists vs, Forall2 parses (cidr_tokens input) vs /\
                   (List.length vs < 2)%nat) \/
       exists t, In t input /\ strings_Contains t "/" = true /\ fails_with t e)
  | Panicked =>
      exists t,
        In t input /\ strings_Contains t "/" = true /\
        cidrToVector t = Panicked
  end.
Proof.
  unfold MergeCIDRs.
  pose proof (MergeCIDRs_scan_inv input [] []) as Hscan.
  destruct (MergeCIDRs_scan input [] []) as [[[out vectors] | e] |].
  - destruct Hscan as (vs & Hvs & -> & ->). cbn [app].
    destruct (Nat.ltb (List.length vs) 2) eqn:Hlen.
    + unfold closestVectors. rewrite Hlen.
      split; [reflexivity |]. left. split; [reflexivity |].
      exists vs. split; [exact Hvs | now apply Nat.ltb_lt].
    + apply Nat.ltb_ge in Hlen.
      destruct (closestVectors_spec vs Hlen) as (i & j & Hij & Hcall & _).
      rewrite Hcall.
      pose proof (Forall2_parses_first _ _ Hvs) as Hfirst.
      rewrite Forall_forall in Hfirst.
      rewrite mergeIPNets_returns by (apply Hfirst, nth_In; lia).
      exists vs, i, j. repeat split; try assumption; try lia.
      now rewrite map_app.
  - split; [reflexivity |]. now right.
  - exact Hscan.
Qed.

(** Every string [render] prints has a slash. *)
Lemma render_has_slash (v : IPv4Vector) : strings_Contains (render v) "/" = true.
Proof.
  unfold render, Sprintf_s_slash_d.
  generalize (uint32ToIP (FirstIP v)) as a.
  generalize (Fmt.Sprintf_d (fst (Size (Mask (CIDR v))))) as r.
  intros r a. unfold strings_Contains.
  induction a as [| c a IH]; [cbn; now destruct r |].
  cbn [String.append index].
  destruct (prefix "/" (String c (a ++ String "/" r))); [reflexivity |].
  destruct (index 0 "/" (a ++ String "/" r)); [reflexivity | discriminate].
Qed.

Lemma filter_literals_rendered (vs : list IPv4Vector) :
  filter (fun t => negb (strings_Contains t "/")) (map render vs) = [] /\
  filter (fun t => strings_Contains t "/") (map render vs) = map render vs.
Proof.
  induction vs as [| v vs [IH1 IH2]]; [split; reflexivity |].
  cbn [map filter]. rewrite render_has_slash. cbn [negb].
  split; [exact IH1 | now rewrite IH2].
Qed.

Lemma filter_twice {A : Type} (f : A -> bool) (l : list A) :
  filter f (filter f l) = filter f l.
Proof.
  induction l as [| a l IH]; [reflexivity |]. cbn [filter].
  destruct (f a) eqn:Hf; [| exact IH]. cbn [filter]. now rewrite Hf, IH.
Qed.

Lemma filter_opposite {A : Type} (f : A -> bool) (l : list A) :
  filter f (filter (fun a => negb (f a)) l) = [].
Proof.
  induction l as [| a l IH]; [reflexivity |]. cbn [filter].
  destruct (f a) eqn:Hf; cbn [negb filter]; [exact IH |].
  now rewrite Hf.
Qed.

Lemma filter_split_length {A : Type} (f : A -> bool) (l : list A) :
  (List.length (filter f l) + List.length (filter (fun a => negb (f a)) l)
   = List.length l)%nat.
Proof.
  induction l as [| a l IH]; [reflexivity |]. cbn [filter].
  destruct (f a); cbn [negb List.length]; lia.
Qed.

End Outcomes.

(** X12. Failure. Whenever [MergeCIDRs] returns an error its output is empty,
    and the error is one of two: the error of [closestVectors], when every
    token with a slash parses and fewer than two do, or the [ParseError]
    of [net.ParseCIDR] for a token of the input that has a slash. *)
Theorem MergeCIDRs_error_empty (input : list string) (maxIpNum : Z)
  (out : list string) (e : error) :
  MergeCIDRs input maxIpNum = Returned (out, Some e) ->
  out = [] /\
  ((e = InsufficientVectorsError /\
    (List.length (cidr_tokens input) < 2)%nat /\
    Forall (fun t => exists v, parses t v) (cidr_tokens input)) \/
   (exists t,
       In t input /\ strings_Contains t "/" = true /\
       e = ParseError "CIDR address" t)).
Proof.
  intros H. pose proof (MergeCIDRs_inv input maxIpNum) as Hinv.
  rewrite H in Hinv. destruct Hinv as [-> Hcases]. split; [reflexivity |].
  destruct Hcases as [[-> (vs & Hvs & Hlen)] | (t & Hin & Ht & Hf)].
  - left. split; [reflexivity |]. split.
    + now rewrite (Forall2_length Hvs).
    + clear Hlen. induction Hvs as [| t v ts vs' Hp _ IH]; constructor;
        [now exists v | exact IH].
  - right. exists t. repeat split; try assumption.
    now apply fails_with_error.
Qed.

Lemma MergeCIDRs_error_empty_witness :
  MergeCIDRs one_cidr_input 0 = Returned ([], Some InsufficientVectorsError) /\
  ([] = @nil string /\
   ((InsufficientVectorsError = InsufficientVectorsError /\
     (List.length (cidr_tokens one_cidr_input) < 2)%nat /\
     Forall (fun t => exists v, parses t v) (cidr_tokens one_cidr_input)) \/
    (exists t,
        In t one_cidr_input /\ strings_Contains t "/" = true /\
        InsufficientVectorsError = ParseError "CIDR address" t))).
Proof.
  assert (H : MergeCIDRs one_cidr_input 0
              = Returned ([], Some InsufficientVectorsError))
    by (vm_compute; reflexivity).
  split; [exact H |].
  exact (MergeCIDRs_error_empty one_cidr_input 0 [] InsufficientVectorsError H).
Defined.

(** X13. Success. Whenever [MergeCIDRs] returns without error, every token of
    the input with a slash was parsed and there were at least two; the
    tokens of the output without a slash are those of the input, in the
    same order; the output has one token with a slash less than the
    input, hence one token less in all; and its last string is a CIDR the
    parser accepts again. *)
Theorem MergeCIDRs_success (input : list string) (maxIpNum : Z)
  (out : list string) :
  MergeCIDRs input maxIpNum = Returned (out, None) ->
  Forall (fun t => exists v, parses t v) (cidr_tokens input) /\
  (2 <= List.length (cidr_tokens input))%nat /\
  literals out = literals input /\
  List.length (cidr_tokens out) = (List.length (cidr_tokens input) - 1)%nat /\
  List.length out = (List.length input - 1)%nat /\
  exists front s v, out = front ++ [s] /\ parses s v /\ render v = s.
Proof.
  intros H. pose proof (MergeCIDRs_inv input maxIpNum) as Hinv.
  rewrite H in Hinv. destruct Hinv as (vs & i & j & Hvs & Hij & ->).
  pose proof (Forall2_length Hvs) as Hlen.
  assert (Hrest : List.length (remove_at i (remove_at j vs))
                  = (List.length vs - 2)%nat).
  { rewrite remove_at_length; rewrite remove_at_length; lia. }
  set (rest := remove_at i (remove_at j vs)) in *.
  set (m := merged (nth i vs zeroVector) (nth j vs zeroVector)).
  change [render m] with (map render [m]).
  rewrite <- map_app.
  destruct (filter_literals_rendered (rest ++ [m])) as [Hlit Hcidr].
  split.
  { clear - Hvs. induction Hvs as [| t v ts vs' Hp _ IH]; constructor;
      [now exists v | exact IH]. }
  split; [lia |]. split.
  { unfold literals. rewrite filter_app, Hlit, app_nil_r.
    apply filter_twice. }
  split.
  { unfold cidr_tokens at 1. rewrite filter_app, Hcidr.
    unfold literals.
    rewrite (filter_opposite (fun t => strings_Contains t "/") input).
    cbn [app]. rewrite length_map, length_app, Hrest. cbn. lia. }
  split.
  { rewrite length_app, length_map, length_app, Hrest. cbn [List.length].
    pose proof (filter_split_length (fun t => strings_Contains t "/") input)
      as Hsplit.
    cbv beta in Hsplit. unfold literals. unfold cidr_tokens in Hlen. lia. }
  exists (literals input ++ map render rest), (render m), m.
  split; [now rewrite map_app, app_assoc |]. split; [| reflexivity].
  pose proof (Forall2_parses_first _ _ Hvs) as Hfirst.
  rewrite Forall_forall in Hfirst.
  apply merged_parses; apply Hfirst, nth_In; lia.
Qed.

Lemma MergeCIDRs_success_witness :
  MergeCIDRs scenario_2 0
  = Returned (["not-a-cidr"; "8.8.8.8/31"]%string, None) /\
  Forall (fun t => exists v, parses t v) (cidr_tokens scenario_2) /\
  (2 <= List.length (cidr_tokens scenario_2))%nat /\
  literals ["not-a-cidr"; "8.8.8.8/31"]%string = literals scenario_2 /\
  List.length (cidr_tokens ["not-a-cidr"; "8.8.8.8/31"]%string)
  = (List.length (cidr_tokens scenario_2) - 1)%nat /\
  List.length ["not-a-cidr"; "8.8.8.8/31"]%string
  = (List.length scenario_2 - 1)%nat /\
  exists front s v,
    ["not-a-cidr"; "8.8.8.8/31"]%string = front ++ [s] /\
    parses s v /\ render v = s.
Proof.
  assert (H : MergeCIDRs scenario_2 0
              = Returned (["not-a-cidr"; "8.8.8.8/31"]%string, None))
    by (vm_compute; reflexivity).
  split; [exact H |].
  exact (MergeCIDRs_success scenario_2 0 _ H).
Defined.

(** ** Where the package panics *)
Section Panics.

Lemma CIDRMask_loop_length (l : nat) :
  forall n, List.length (CIDRMask_loop l n) = l.
Proof.
  induction l as [| l IH]; intros n; [reflexivity |].
  cbn [CIDRMask_loop]. destruct (n >=? 8); cbn [List.length]; now rewrite IH.
Qed.

(** The mask [net.ParseCIDR] returns has 4 or 16 bytes. *)
Lemma ParseCIDR_mask_length (s : string) (ip : IP) (ipNet : IPNet) :
  ParseCIDR s = inl (ip, ipNet) ->
  List.length (Mask ipNet) = 4%nat \/ List.length (Mask ipNet) = 16%nat.
Proof.
  unfold ParseCIDR.
  destruct (Netip.cut_byte "/"%char s) as [[addr mask] |]; [| discriminate].
  destruct (Netip.ParseAddr addr) as [ipAddr |]; [| discriminate].
  destruct (Netip.Zone ipAddr); [| discriminate].
  destruct (dtoi mask) as [[n i] ok].
  destruct (negb ok) eqn:Hok; [discriminate |].
  destruct (negb (Nat.eqb i (String.length mask))) eqn:Hi; [discriminate |].
  destruct (n <? 0) eqn:Hneg; [discriminate |].
  destruct (n >? Netip.BitLen ipAddr) eqn:Hbig; [discriminate |].
  cbn [orb]. intros H. injection H as _ <-. cbn [Mask].
  unfold CIDRMask. rewrite Hneg, Hbig.
  destruct ipAddr; cbn [Netip.BitLen]; cbn; rewrite CIDRMask_loop_length;
    [now left | now right].
Qed.

Lemma To4_length (ip : IP) : To4 ip = [] \/ List.length (To4 ip) = 4%nat.
Proof.
  unfold To4.
  destruct (Nat.eqb (List.length ip) 4) eqn:H4.
  - right. now apply Nat.eqb_eq.
  - destruct (Nat.eqb (List.length ip) 16) eqn:H16; cbn [andb]; [| now left].
    destruct (isZeros (firstn 10 ip) && _ && _); [| now left].
    right. apply Nat.eqb_eq in H16.
    rewrite length_firstn, length_skipn. lia.
Qed.

Lemma Uint32_returns (b : list byte) :
  (4 <= List.length b)%nat -> exists x, Binary.Uint32 b = Returned x.
Proof.
  destruct b as [| b0 [| b1 [| b2 [| b3 rest]]]]; cbn; intros H; try lia.
  eexists. reflexivity.
Qed.

Lemma cidrToVector_panics_iff_aux (s : string) :
  cidrToVector s = Panicked ->
  exists ip ipNet, ParseCIDR s = inl (ip, ipNet) /\ To4 ip = [].
Proof.
  unfold cidrToVector.
  destruct (ParseCIDR s) as [[ip ipNet] | err] eqn:HP; [| discriminate].
  intros H. exists ip, ipNet. split; [reflexivity |].
  destruct (To4_length ip) as [H0 | H4]; [exact H0 |].
  destruct (Uint32_returns (To4 ip)) as [x Hx]; [lia |].
  rewrite Hx in H.
  destruct (ParseCIDR_mask_length s ip ipNet HP) as [Hm | Hm];
    destruct (Uint32_returns (Mask ipNet)) as [m Hmask]; try lia;
    rewrite Hmask in H; discriminate.
Qed.

End Panics.

(** X14. [cidrToVector] panics on exactly the strings that [net.ParseCIDR]
    accepts with an address [To4] does not turn into four bytes (an IPv6
    address that is not IPv4-mapped); on every other string it returns,
    with an interval or with the parse error. *)
Theorem cidrToVector_panics_iff (s : string) :
  cidrToVector s = Panicked <->
  exists ip ipNet, ParseCIDR s = inl (ip, ipNet) /\ To4 ip = [].
Proof.
  split; [apply cidrToVector_panics_iff_aux |].
  intros (ip & ipNet & HP & H0). unfold cidrToVector. now rewrite HP, H0.
Qed.

(** X16. On intervals that are near each other (first addresses and last
    addresses less than [2^31] apart) [distance] is a metric: it is zero
    exactly for equal ends, and it obeys the triangle inequality. The
    distance of an interval to itself is zero without any condition. *)
Theorem distance_metric_near (A B C : IPv4Vector) :
  well_formed A -> well_formed B -> well_formed C ->
  Z.abs (FirstIP A - FirstIP B) < 2 ^ 31 -> Z.abs (LastIP A - LastIP B) < 2 ^ 31 ->
  Z.abs (FirstIP B - FirstIP C) < 2 ^ 31 -> Z.abs (LastIP B - LastIP C) < 2 ^ 31 ->
  Z.abs (FirstIP A - FirstIP C) < 2 ^ 31 -> Z.abs (LastIP A - LastIP C) < 2 ^ 31 ->
  distance A A = 0 /\
  (distance A B = 0 <-> FirstIP A = FirstIP B /\ LastIP A = LastIP B) /\
  distance A C <= distance A B + distance B C.
Proof.
  intros HA HB HC HF1 HL1 HF2 HL2 HF3 HL3.
  rewrite (distance_of_small_differences A B), (distance_of_small_differences B C),
    (distance_of_small_differences A C) by assumption.
  split.
  - unfold distance.
    destruct (FirstIP A >? FirstIP A), (LastIP A >? LastIP A);
      rewrite !Z.sub_diag; reflexivity.
  - unfold exact_distance. split; [split |]; lia.
Qed.

Lemma distance_metric_near_witness :
  distance v_10_0_0_0_24 v_10_0_0_0_24 = 0 /\
  (distance v_10_0_0_0_24 v_0_0_0_0_2 = 0 <->
   FirstIP v_10_0_0_0_24 = FirstIP v_0_0_0_0_2 /\
   LastIP v_10_0_0_0_24 = LastIP v_0_0_0_0_2) /\
  distance v_10_0_0_0_24 (vector_of 10 0 1 0 24)
  <= distance v_10_0_0_0_24 v_0_0_0_0_2
     + distance v_0_0_0_0_2 (vector_of 10 0 1 0 24).
Proof.
  apply (distance_metric_near v_10_0_0_0_24 v_0_0_0_0_2 (vector_of 10 0 1 0 24));
    vm_compute; (reflexivity || (split; split; congruence)).
Defined.

(** ** Prefix lengths in decimal *)
Section PrefixLength.

Lemma digit_is_digit (d : Z) :
  0 <= d < 10 ->
  Netip.isDigit (Fmt.digit d) = true /\ byte_to_Z (Fmt.digit d) - 48 = d.
Proof.
  intros Hd. unfold Netip.isDigit, Fmt.digit. rewrite byte_to_of_Z.
  rewrite Z.mod_small by lia. split; [| lia].
  apply andb_true_iff. split; apply Z.leb_le; lia.
Qed.

(** One digit read by [dtoi]. *)
Lemma dtoi_loop_digit (d : Z) (acc : string) (m : Z) (i : nat) :
  0 <= d < 10 ->
  dtoi_loop (String (Fmt.digit d) acc) m i =
  if m * 10 + d >=? big then (big, i, false)
  else dtoi_loop acc (m * 10 + d) (S i).
Proof.
  intros Hd. destruct (digit_is_digit d Hd) as [Hdig Hval].
  cbn [dtoi_loop]. now rewrite Hdig, Hval.
Qed.

(** [dtoi] on the digits [fmtUint] prints, followed by [acc]: either the
    number outgrows [big], or the digits are read as the number and [dtoi]
    goes on in [acc]. *)
Lemma fmtUint_dtoi (f : nat) :
  forall (n : Z) (acc : string) (m : Z) (i : nat),
    0 <= n < 10 ^ Z.of_nat (S f) ->
    (exists i', dtoi_loop (Fmt.fmtUint (S f) n acc) m i = (big, i', false)) \/
    (exists k,
        (0 < k)%nat /\
        dtoi_loop (Fmt.fmtUint (S f) n acc) m i
        = dtoi_loop acc (m * 10 ^ Z.of_nat k + n) (i + k)%nat).
Proof.
  assert (Hone : forall n acc m i, 0 <= n < 10 ->
            (exists i', dtoi_loop (String (Fmt.digit (n mod 10)) acc) m i
                        = (big, i', false)) \/
            (exists k, (0 < k)%nat /\
               dtoi_loop (String (Fmt.digit (n mod 10)) acc) m i
               = dtoi_loop acc (m * 10 ^ Z.of_nat k + n) (i + k)%nat)).
  { intros n acc m i Hn. rewrite Z.mod_small by lia.
    rewrite dtoi_loop_digit by lia.
    destruct (m * 10 + n >=? big); [left; now exists i |].
    right. exists 1%nat. split; [lia |].
    change (10 ^ Z.of_nat 1) with 10. now rewrite Nat.add_1_r. }
  induction f as [| f IH]; intros n acc m i Hn; cbn [Fmt.fmtUint].
  - replace (n <? 10) with true
      by (symmetry; apply Z.ltb_lt; change (10 ^ Z.of_nat 1) with 10 in Hn; lia).
    now apply Hone.
  - destruct (Z.ltb_spec n 10) as [Hlt | Hge]; [apply Hone; lia |].
    assert (Hdiv : 0 <= n / 10 < 10 ^ Z.of_nat (S f)).
    { rewrite (Nat2Z.inj_succ (S f)), Z.pow_succ_r in Hn by lia.
      split; [apply Z.div_pos; lia |].
      apply Z.div_lt_upper_bound; lia. }
    destruct (IH (n / 10) (String (Fmt.digit (n mod 10)) acc) m i Hdiv)
      as [[i' Hover] | (k & Hk & Hread)].
    + left. now exists i'.
    + cbn [Fmt.fmtUint] in Hread. rewrite Hread.
      rewrite dtoi_loop_digit by (apply Z.mod_pos_bound; lia).
      destruct (_ >=? big); [left; eexists; reflexivity |].
      right. exists (S k). split; [lia |].
      rewrite Nat2Z.inj_succ, Z.pow_succ_r by lia.
      replace ((m * 10 ^ Z.of_nat k + n / 10) * 10 + n mod 10)
        with (m * (10 * 10 ^ Z.of_nat k) + n).
      * now rewrite Nat.add_succ_r.
      * pose proof (Z.div_mod n 10 ltac:(lia)). lia.
Qed.

(** [dtoi] on [%d] of any Go [int]: a number that is not negative is read
    back, unless it outgrows [big]; nothing is read of a negative one. *)
Lemma dtoi_Sprintf_d_int (n : Z) :
  - 2 ^ 63 <= n < 2 ^ 63 ->
  (exists i', dtoi (Fmt.Sprintf_d n) = (big, i', false)) \/
  (n < 0 /\ dtoi (Fmt.Sprintf_d n) = (0, O, false)) \/
  (0 <= n /\ exists k, dtoi (Fmt.Sprintf_d n) = (n, k, true)).
Proof.
  intros Hn. unfold dtoi, Fmt.Sprintf_d.
  destruct (Z.ltb_spec n 0) as [Hneg | Hpos].
  - right. left. split; [exact Hneg | reflexivity].
  - assert (Hfuel : 0 <= n < 10 ^ Z.of_nat 20).
    { assert (2 ^ 63 < 10 ^ Z.of_nat 20) by (vm_compute; reflexivity). lia. }
    destruct (fmtUint_dtoi 19 n EmptyString 0 O Hfuel)
      as [[i' Hover] | (k & Hk & Hread)].
    + left. now exists i'.
    + right. right. split; [exact Hpos |]. exists k.
      rewrite Hread. cbn [dtoi_loop Nat.add Z.mul Z.add].
      replace (Nat.eqb k 0) with false by (symmetry; apply Nat.eqb_neq; lia).
      reflexivity.
Qed.

End PrefixLength.

(** X17. The prefix lengths the parser accepts are exactly 0 to 32: a dotted
    quad followed by a slash and [%d] of an integer [n] gives an interval
    when [0 <= n <= 32], and the [ParseError] of [net.ParseCIDR] (carrying
    the string) for every other [n]. *)
Theorem cidrToVector_prefix_range (a b c d : byte) (n : Z) :
  - 2 ^ 63 <= n < 2 ^ 63 ->
  (0 <= n <= 32 ->
   exists v,
     cidrToVector (canonical a b c d n) = Returned (v, None) /\
     fst (Size (Mask (CIDR v))) = n) /\
  (n < 0 \/ 32 < n ->
   cidrToVector (canonical a b c d n)
   = Returned (zeroVector,
               Some (ParseError "CIDR address" (canonical a b c d n)))).
Proof.
  intros Hint. split.
  - intros Hn. eexists. split; [now apply cidrToVector_canonical |].
    cbn [CIDR Mask]. now apply Size_CIDRMask.
  - intros Hout. unfold cidrToVector, ParseCIDR, canonical.
    rewrite cut_dotted, ParseAddr_dotted.
    cbn [Netip.Zone Netip.BitLen].
    destruct (dtoi_Sprintf_d_int n Hint)
      as [[i' ->] | [[Hneg ->] | [Hpos [k ->]]]].
    + reflexivity.
    + reflexivity.
    + cbn [negb orb].
      replace (n >? 32) with true
        by (symmetry; rewrite Z.gtb_ltb; apply Z.ltb_lt; lia).
      now rewrite !orb_true_r.
Qed.

Lemma cidrToVector_prefix_range_witness :
  canonical (byte_of_Z 10) (byte_of_Z 0) (byte_of_Z 0) (byte_of_Z 0) 33
  = "10.0.0.0/33"%string /\
  (0 <= 33 <= 32 ->
   exists v,
     cidrToVector
       (canonical (byte_of_Z 10) (byte_of_Z 0) (byte_of_Z 0) (byte_of_Z 0) 33)
     = Returned (v, None) /\
     fst (Size (Mask (CIDR v))) = 33) /\
  (33 < 0 \/ 32 < 33 ->
   cidrToVector
     (canonical (byte_of_Z 10) (byte_of_Z 0) (byte_of_Z 0) (byte_of_Z 0) 33)
   = Returned
       (zeroVector,
        Some (ParseError "CIDR address"
                (canonical (byte_of_Z 10) (byte_of_Z 0) (byte_of_Z 0)
                   (byte_of_Z 0) 33)))).
Proof.
  split; [reflexivity |].
  apply (cidrToVector_prefix_range (byte_of_Z 10) (byte_of_Z 0) (byte_of_Z 0)
           (byte_of_Z 0) 33).
  vm_compute. split; congruence.
Defined.

(** ** What the parser returns for an IPv4 string *)
Section IPv4Tokens.

Lemma list_set_length {A : Type} (l : list A) :
  forall i v, List.length (list_set l i v) = List.length l.
Proof.
  induction l as [| h t IH]; intros i v; [reflexivity |].
  destruct i; cbn [list_set List.length]; [reflexivity | now rewrite IH].
Qed.

Lemma parseIPv4Fields_loop_length (s : string) :
  forall prev st st',
    Netip.parseIPv4Fields_loop s prev st = Some st' ->
    List.length (Netip.fields st') = List.length (Netip.fields st).
Proof.
  induction s as [| c s IH]; intros prev st st'; cbn [Netip.parseIPv4Fields_loop].
  - intros H. now injection H as <-.
  - destruct (Netip.isDigit c).
    + destruct ((Netip.digLen st =? 1) && (Netip.val st =? 0)); [discriminate |].
      destruct (_ >? 255); [discriminate |].
      intros H. now rewrite (IH _ _ _ H).
    + destruct (Netip.isDot c); [| discriminate].
      destruct (_ || _); [discriminate |].
      destruct (Nat.eqb (Netip.pos st) 3); [discriminate |].
      intros H. rewrite (IH _ _ _ H). cbn [Netip.fields].
      apply list_set_length.
Qed.

Lemma parseIPv4_four (s : string) (a : Netip.Addr) :
  Netip.parseIPv4 s = Some a ->
  exists b0 b1 b2 b3, a = Netip.Addr4 [b0; b1; b2; b3].
Proof.
  unfold Netip.parseIPv4, Netip.parseIPv4Fields.
  destruct (Netip.parseIPv4Fields_loop s None _) as [st |] eqn:Hloop;
    [| discriminate].
  destruct (Nat.ltb (Netip.pos st) 3); [discriminate |].
  intros H. injection H as <-.
  apply parseIPv4Fields_loop_length in Hloop. cbn [Netip.fields] in Hloop.
  pose proof (list_set_length (Netip.fields st) 3 (byte_of_Z (Netip.val st)))
    as Hlen.
  rewrite Hloop in Hlen. cbn in Hlen.
  destruct (list_set (Netip.fields st) 3 (byte_of_Z (Netip.val st)))
    as [| b0 [| b1 [| b2 [| b3 [| b4 rest]]]]]; try discriminate.
  now exists b0, b1, b2, b3.
Qed.

Lemma parseIPv6_six (s : string) (a : Netip.Addr) :
  Netip.parseIPv6 s = Some a -> exists ip zone, a = Netip.Addr6 ip zone.
Proof.
  unfold Netip.parseIPv6.
  destruct (match Netip.cut_byte "%"%char s with
            | Some (s0, zone) =>
                match zone with
                | EmptyString => None
                | String _ _ => Some (s0, zone)
                end
            | None => Some (s, EmptyString)
            end) as [[s0 zone] |]; [| discriminate].
  intros H.
  repeat match type of H with
         | match ?x with _ => _ end = _ => destruct x
         end;
    try discriminate; injection H as <-; eexists; eexists; reflexivity.
Qed.

Lemma ParseAddr_scan_forms (whole s : string) (a : Netip.Addr) :
  Netip.ParseAddr_scan whole s = Some a ->
  (exists b0 b1 b2 b3, a = Netip.Addr4 [b0; b1; b2; b3]) \/
  (exists ip zone, a = Netip.Addr6 ip zone).
Proof.
  induction s as [| c s IH]; cbn [Netip.ParseAddr_scan]; [discriminate |].
  destruct (Netip.isDot c); [intros H; left; now apply (parseIPv4_four whole) |].
  destruct (Netip.isColon c); [intros H; right; now apply (parseIPv6_six whole) |].
  destruct (Ascii.eqb c "%"%char); [discriminate | exact IH].
Qed.

(** A string accepted with a 4-byte mask is an IPv4 address with a prefix
    length from 0 to 32. *)
Lemma ParseCIDR_IPv4 (s : string) (ip : IP) (ipNet : IPNet) :
  ParseCIDR s = inl (ip, ipNet) -> List.length (Mask ipNet) = 4%nat ->
  exists a b c d n,
    0 <= n <= 32 /\ ip = IPv4 a b c d /\
    ipNet = mkIPNet (IP_Mask (IPv4 a b c d) (CIDRMask n 32)) (CIDRMask n 32).
Proof.
  unfold ParseCIDR.
  destruct (Netip.cut_byte "/"%char s) as [[addr mask] |]; [| discriminate].
  destruct (Netip.ParseAddr addr) as [ipAddr |] eqn:Haddr; [| discriminate].
  destruct (Netip.Zone ipAddr); [| discriminate].
  destruct (dtoi mask) as [[n i] ok].
  destruct (negb ok) eqn:Hok; [discriminate |].
  destruct (negb (Nat.eqb i (String.length mask))) eqn:Hi; [discriminate |].
  destruct (n <? 0) eqn:Hneg; [discriminate |].
  destruct (n >? Netip.BitLen ipAddr) eqn:Hbig; [discriminate |].
  cbn [orb]. intros H Hlen. injection H as <- <-. cbn [Mask] in Hlen.
  apply Z.ltb_ge in Hneg. rewrite Z.gtb_ltb in Hbig. apply Z.ltb_ge in Hbig.
  destruct (ParseAddr_scan_forms addr addr ipAddr Haddr)
    as [(b0 & b1 & b2 & b3 & ->) | (ip6 & zone & ->)];
    cbn [Netip.BitLen Netip.As16] in *.
  - exists b0, b1, b2, b3, n. split; [lia |]. split; reflexivity.
  - exfalso. unfold CIDRMask in Hlen.
    replace (n <? 0) with false in Hlen by (symmetry; apply Z.ltb_ge; lia).
    replace (n >? 128) with false in Hlen
      by (symmetry; rewrite Z.gtb_ltb; apply Z.ltb_ge; lia).
    cbn in Hlen. rewrite CIDRMask_loop_length in Hlen. discriminate.
Qed.

(** The interval of an accepted IPv4 string is the one of a canonical
    string. *)
Lemma parses_IPv4 (s : string) (v : IPv4Vector) :
  parses s v -> List.length (Mask (CIDR v)) = 4%nat ->
  exists a b c d n,
    0 <= n <= 32 /\ parses (canonical a b c d n) v /\
    render v = canonical a b c d n.
Proof.
  intros Hp Hlen.
  destruct (cidrToVector_fields s v Hp)
    as (ip & ipNet & mask & HP & HF & HM & HL & HC).
  rewrite HC in Hlen.
  destruct (ParseCIDR_IPv4 s ip ipNet HP Hlen)
    as (a & b & c & d & n & Hn & -> & ->).
  exists a, b, c, d, n. split; [exact Hn |].
  rewrite To4_IPv4 in HF. cbn [Binary.Uint32] in HF.
  cbn [Mask] in HM. rewrite Uint32_CIDRMask in HM by exact Hn.
  injection HF as HF. injection HM as HM. fold (be32 a b c d) in HF.
  assert (Hv : v = mkVector (be32 a b c d)
                 (Z.lor (Z.land (be32 a b c d) (mask32 n))
                    (Z.lxor (mask32 n) 4294967295))
                 (mkIPNet (IP_Mask (IPv4 a b c d) (CIDRMask n 32))
                    (CIDRMask n 32))).
  { destruct v as [f l0 cidr]. cbn [FirstIP LastIP CIDR] in HF, HL, HC.
    now rewrite HL, HC, <- HF, <- HM. }
  split.
  - unfold parses. rewrite cidrToVector_canonical by exact Hn. now rewrite Hv.
  - rewrite Hv. unfold render. cbn [FirstIP CIDR Mask].
    rewrite uint32ToIP_be32, Size_CIDRMask by exact Hn.
    apply canonical_split.
Qed.

Lemma render_normal_form_aux (s : string) (v : IPv4Vector) :
  parses s v -> List.length (Mask (CIDR v)) = 4%nat -> parses (render v) v.
Proof.
  intros Hp Hlen.
  destruct (parses_IPv4 s v Hp Hlen) as (a & b & c & d & n & Hn & Hcan & Hr).
  now rewrite Hr.
Qed.

End IPv4Tokens.

(** X18. Normal form. For every IPv4 string the parser accepts (the mask has
    four bytes), the string printed for its interval is in canonical text
    form and is parsed to the same interval again: printing after parsing
    is idempotent, whatever the spelling of the input was. *)
Theorem render_normal_form (s : string) (v : IPv4Vector) :
  parses s v -> List.length (Mask (CIDR v)) = 4%nat ->
  parses (render v) v /\
  exists a b c d n, 0 <= n <= 32 /\ render v = canonical a b c d n.
Proof.
  intros Hp Hlen.
  destruct (parses_IPv4 s v Hp Hlen) as (a & b & c & d & n & Hn & Hcan & Hr).
  split; [now rewrite Hr |]. now exists a, b, c, d, n.
Qed.

Lemma render_normal_form_witness :
  parses "10.0.0.0/024" v_10_0_0_0_24 /\
  render v_10_0_0_0_24 = "10.0.0.0/24"%string /\
  parses (render v_10_0_0_0_24) v_10_0_0_0_24 /\
  exists a b c d n,
    0 <= n <= 32 /\ render v_10_0_0_0_24 = canonical a b c d n.
Proof.
  assert (H : parses "10.0.0.0/024" v_10_0_0_0_24) by (vm_compute; reflexivity).
  split; [exact H |]. split; [vm_compute; reflexivity |].
  exact (render_normal_form "10.0.0.0/024" v_10_0_0_0_24 H eq_refl).
Defined.

(** ** Calling MergeCIDRs on its own output *)
Section Iteration.

Lemma MergeCIDRs_returns_ok (input : list string) (maxIpNum : Z)
  (vs : list IPv4Vector) :
  Forall2 parses (cidr_tokens input) vs -> (2 <= List.length vs)%nat ->
  exists i j,
    (i < j < List.length vs)%nat /\
    MergeCIDRs input maxIpNum =
    Returned
      (literals input
         ++ map render
              (remove_at i (remove_at j vs)
                 ++ [merged (nth i vs zeroVector) (nth j vs zeroVector)]),
       None).
Proof.
  intros Hvs Hlen.
  destruct (closestVectors_spec vs Hlen) as (i & j & Hij & Hcall & _).
  exists i, j. split; [exact Hij |].
  pose proof (Forall2_parses_first _ _ Hvs) as Hfirst.
  rewrite Forall_forall in Hfirst.
  unfold MergeCIDRs.
  rewrite (MergeCIDRs_scan_parsed input [] [] vs Hvs). cbn [app].
  rewrite Hcall, mergeIPNets_returns by (apply Hfirst, nth_In; lia).
  reflexivity.
Qed.

Lemma In_remove_at {A : Type} (x : A) (i : nat) (s : list A) :
  In x (remove_at i s) -> In x s.
Proof.
  unfold remove_at. intros H. apply in_app_or in H.
  destruct H as [H | H].
  - rewrite <- (firstn_skipn i s). apply in_or_app. now left.
  - rewrite <- (firstn_skipn (i + 1) s). apply in_or_app. now right.
Qed.

Lemma Forall2_parses_rendered (xs : list IPv4Vector) :
  Forall (fun x => parses (render x) x) xs ->
  Forall2 parses (map render xs) xs.
Proof. induction 1; cbn [map]; now constructor. Qed.

(** The tokens of an output of [MergeCIDRs]. *)
Lemma output_tokens (input : list string) (xs : list IPv4Vector) :
  literals (literals input ++ map render xs) = literals input /\
  cidr_tokens (literals input ++ map render xs) = map render xs /\
  (List.length (literals input ++ map render xs) + List.length (cidr_tokens input)
   = List.length input + List.length xs)%nat.
Proof.
  destruct (filter_literals_rendered xs) as [Hlit Hcidr].
  split; [| split].
  - unfold literals. rewrite filter_app, Hlit, app_nil_r. apply filter_twice.
  - unfold cidr_tokens, literals. rewrite filter_app, Hcidr.
    now rewrite (filter_opposite (fun t => strings_Contains t "/") input).
  - rewrite length_app, length_map.
    pose proof (filter_split_length (fun t => strings_Contains t "/") input)
      as Hsplit.
    cbv beta in Hsplit. unfold literals, cidr_tokens. lia.
Qed.

End Iteration.

(** X19. Two calls in a row. When every token with a slash is an IPv4 string
    the parser accepts and there are at least three, [MergeCIDRs] succeeds
    and can be called on its own output: the second call succeeds too,
    keeps the tokens without a slash as they were, and leaves two tokens
    with a slash less than the input had. *)
Theorem MergeCIDRs_twice (input : list string) (m1 m2 : Z)
  (vs : list IPv4Vector) :
  Forall2 parses (cidr_tokens input) vs ->
  Forall (fun v => List.length (Mask (CIDR v)) = 4%nat) vs ->
  (3 <= List.length vs)%nat ->
  exists out1 out2,
    MergeCIDRs input m1 = Returned (out1, None) /\
    MergeCIDRs out1 m2 = Returned (out2, None) /\
    literals out2 = literals input /\
    List.length (cidr_tokens out2) = (List.length vs - 2)%nat /\
    List.length out2 = (List.length input - 2)%nat.
Proof.
  intros Hvs Hv4 Hlen.
  pose proof (Forall2_length Hvs) as Hcount.
  destruct (MergeCIDRs_returns_ok input m1 vs Hvs ltac:(lia))
    as (i & j & Hij & Hcall1).
  set (xs := remove_at i (remove_at j vs)
             ++ [merged (nth i vs zeroVector) (nth j vs zeroVector)]) in *.
  assert (Hxs_len : List.length xs = (List.length vs - 1)%nat).
  { unfold xs. rewrite length_app, remove_at_length; rewrite remove_at_length;
      cbn [List.length]; lia. }
  assert (Hparsed : forall x, In x vs -> parses (render x) x).
  { intros x Hx.
    destruct (In_nth vs x zeroVector Hx) as (k & Hk & <-).
    destruct (Forall2_nth_parses _ _ k Hvs Hk) as [t Ht].
    apply (render_normal_form_aux t _ Ht).
    rewrite Forall_forall in Hv4. apply Hv4, nth_In, Hk. }
  assert (Hxs : Forall (fun x => parses (render x) x) xs).
  { unfold xs. apply Forall_app. split.
    - apply Forall_forall. intros x Hx.
      apply Hparsed. now apply In_remove_at in Hx; apply In_remove_at in Hx.
    - constructor; [| constructor].
      pose proof (Forall2_parses_first _ _ Hvs) as Hfirst.
      rewrite Forall_forall in Hfirst.
      apply merged_parses; apply Hfirst, nth_In; lia. }
  destruct (output_tokens input xs) as (Hlit1 & Hcidr1 & Hlen1).
  set (out1 := literals input ++ map render xs) in *.
  assert (Hvs1 : Forall2 parses (cidr_tokens out1) xs)
    by (rewrite Hcidr1; now apply Forall2_parses_rendered).
  destruct (MergeCIDRs_returns_ok out1 m2 xs Hvs1 ltac:(lia))
    as (i' & j' & Hij' & Hcall2).
  set (ys := remove_at i' (remove_at j' xs)
             ++ [merged (nth i' xs zeroVector) (nth j' xs zeroVector)]) in *.
  assert (Hys_len : List.length ys = (List.length xs - 1)%nat).
  { unfold ys. rewrite length_app, remove_at_length; rewrite remove_at_length;
      cbn [List.length]; lia. }
  destruct (output_tokens out1 ys) as (Hlit2 & Hcidr2 & Hlen2).
  exists out1, (literals out1 ++ map render ys).
  split; [exact Hcall1 |]. split; [exact Hcall2 |].
  split; [now rewrite Hlit2 |].
  split; [rewrite Hcidr2, length_map; lia |].
  rewrite Hcidr1, length_map in Hlen2. lia.
Qed.

Lemma MergeCIDRs_twice_witness :
  Forall2 parses
    (cidr_tokens ["10.0.0.0/24"; "office"; "10.0.1.0/24"; "10.0.4.0/24"]%string)
    [vector_of 10 0 0 0 24; vector_of 10 0 1 0 24; vector_of 10 0 4 0 24] /\
  MergeCIDRs ["10.0.0.0/24"; "office"; "10.0.1.0/24"; "10.0.4.0/24"]%string 0
  = Returned (["office"; "10.0.4.0/24"; "10.0.0.0/23"]%string, None) /\
  MergeCIDRs ["office"; "10.0.4.0/24"; "10.0.0.0/23"]%string 0
  = Returned (["office"; "10.0.0.0/21"]%string, None) /\
  exists out1 out2,
    MergeCIDRs ["10.0.0.0/24"; "office"; "10.0.1.0/24"; "10.0.4.0/24"]%string 0
    = Returned (out1, None) /\
    MergeCIDRs out1 0 = Returned (out2, None) /\
    literals out2
    = literals ["10.0.0.0/24"; "office"; "10.0.1.0/24"; "10.0.4.0/24"]%string /\
    List.length (cidr_tokens out2) = (3 - 2)%nat /\
    List.length out2 = (4 - 2)%nat.
Proof.
  assert (H : Forall2 parses
                (cidr_tokens
                   ["10.0.0.0/24"; "office"; "10.0.1.0/24"; "10.0.4.0/24"]%string)
                [vector_of 10 0 0 0 24; vector_of 10 0 1 0 24;
                 vector_of 10 0 4 0 24]).
  { repeat constructor; vm_compute; reflexivity. }
  split; [exact H |].
  split; [vm_compute; reflexivity |]. split; [vm_compute; reflexivity |].
  apply (MergeCIDRs_twice _ 0 0 _ H).
  - repeat constructor.
  - simpl. lia.
Defined.

(** ** One merge per call *)
Section SingleMerge.







End SingleMerge.




(** ** The bounds checks never fire *)
Section Bounds.

Lemma index_checked_nth {A : Type} (l : list A) (i : nat) (d : A) :
  (i < List.length l)%nat -> Checked.index_checked l i = Returned (nth i l d).
Proof.
  intros Hi. unfold Checked.index_checked.
  now rewrite (nth_error_nth' l d Hi).
Qed.

Lemma fold_checked_returns {A B : Type} (f : A -> B -> outcome A)
  (g : A -> B -> A) (l : list B) :
  (forall b, In b l -> forall a, f a b = Returned (g a b)) ->
  forall a, Checked.fold_checked f l a = Returned (fold_left g l a).
Proof.
  induction l as [| b l IH]; intros Hf a; [reflexivity |].
  cbn [Checked.fold_checked fold_left].
  rewrite Hf by now left.
  apply IH. intros b' Hb'. apply Hf. now right.
Qed.

Lemma scan_step_in_bounds (l : list IPv4Vector) (i j : nat) (st : scan) :
  (i < List.length l)%nat -> (j < List.length l)%nat ->
  Checked.scan_step l i j st = Returned (scan_step l i j st).
Proof.
  intros Hi Hj. unfold Checked.scan_step, scan_step.
  now rewrite (index_checked_nth l i zeroVector Hi),
    (index_checked_nth l j zeroVector Hj).
Qed.

Lemma scan_inner_in_bounds (l : list IPv4Vector) (st : scan) (i : nat) :
  Checked.scan_inner l st i = Returned (scan_inner l st i).
Proof.
  unfold Checked.scan_inner, scan_inner.
  apply fold_checked_returns. intros j Hj a.
  apply in_seq in Hj. apply scan_step_in_bounds; lia.
Qed.

Lemma scan_all_in_bounds (l : list IPv4Vector) :
  Checked.scan_all l = Returned (scan_all l).
Proof.
  unfold Checked.scan_all, scan_all.
  apply fold_checked_returns. intros i _ st. apply scan_inner_in_bounds.
Qed.

Lemma remove_at_in_bounds {A : Type} (i : nat) (s : list A) :
  (i < List.length s)%nat ->
  Checked.remove_at_checked i s = Returned (remove_at i s).
Proof.
  intros Hi. unfold Checked.remove_at_checked, remove_at.
  now replace (Nat.leb (i + 1) (List.length s)) with true
    by (symmetry; apply Nat.leb_le; lia).
Qed.

Lemma closestVectors_in_bounds (l : list IPv4Vector) :
  Checked.closestVectors l = Returned (closestVectors l).
Proof.
  unfold Checked.closestVectors, closestVectors.
  destruct (Nat.ltb (List.length l) 2) eqn:Hlen; [reflexivity |].
  apply Nat.ltb_ge in Hlen.
  destruct (scan_all_spec l Hlen) as (i0 & j0 & Hv & _ & _ & Hf & Hl & _).
  rewrite scan_all_in_bounds. cbv zeta.
  rewrite remove_at_in_bounds by lia.
  rewrite remove_at_in_bounds by (rewrite remove_at_length; lia).
  reflexivity.
Qed.

Lemma string_index_in_bounds (x : Z) (i : nat) :
  (i < 32)%nat ->
  Checked.string_index_checked (Fmt.Sprintf_032b x) i
  = Returned (index_byte (Fmt.Sprintf_032b x) i).
Proof.
  intros Hi. do 32 (destruct i as [| i]; [reflexivity |]). lia.
Qed.

Lemma countDifferentBits_loop_in_bounds (x y : Z) (n : nat) :
  forall i, (i + n <= 32)%nat ->
    Checked.countDifferentBits_loop (Fmt.Sprintf_032b x) (Fmt.Sprintf_032b y)
      n i
    = Returned
        (countDifferentBits_loop (Fmt.Sprintf_032b x) (Fmt.Sprintf_032b y)
           n i).
Proof.
  induction n as [| n IH]; intros i Hi; [reflexivity |].
  cbn [Checked.countDifferentBits_loop countDifferentBits_loop].
  rewrite !string_index_in_bounds by lia.
  destruct (negb (Ascii.eqb _ _)); [reflexivity |].
  apply IH. lia.
Qed.

Lemma countDifferentBits_in_bounds (x y : Z) :
  Checked.countDifferentBits x y = Returned (countDifferentBits x y).
Proof.
  unfold Checked.countDifferentBits, countDifferentBits.
  apply countDifferentBits_loop_in_bounds. lia.
Qed.

Lemma mergeIPNets_in_bounds (v1 v2 : IPv4Vector) :
  Checked.mergeIPNets v1 v2 = mergeIPNets v1 v2.
Proof.
  unfold Checked.mergeIPNets, mergeIPNets. cbv zeta.
  now rewrite countDifferentBits_in_bounds.
Qed.

Lemma MergeCIDRs_in_bounds (input : list string) (maxIpNum : Z) :
  Checked.MergeCIDRs input maxIpNum = MergeCIDRs input maxIpNum.
Proof.
  unfold Checked.MergeCIDRs, MergeCIDRs.
  destruct (MergeCIDRs_scan input [] []) as [[[out vectors] | e] |];
    try reflexivity.
  rewrite closestVectors_in_bounds.
  destruct (closestVectors vectors) as [[[v1 v2] [e |]] vectors1];
    [reflexivity |].
  now rewrite mergeIPNets_in_bounds.
Qed.

End Bounds.

(** X15. No index of [MergeCIDRs] is ever out of range. With the bounds
    checks of Go made on every element read and every slice expression of
    [closestVectors] and on every byte read of [countDifferentBits], the
    selector returns what it returns without them, on every slice, and so
    does the whole call, on every input. A call then panics only in its
    parser: the input holds a token with a slash that [net.ParseCIDR]
    accepts and whose address is not IPv4. *)
Theorem MergeCIDRs_panics_only_in_parser (input : list string) (maxIpNum : Z) :
  (forall l, Checked.closestVectors l = Returned (closestVectors l)) /\
  (forall x y, Checked.countDifferentBits x y
               = Returned (countDifferentBits x y)) /\
  Checked.MergeCIDRs input maxIpNum = MergeCIDRs input maxIpNum /\
  (Checked.MergeCIDRs input maxIpNum = Panicked ->
   exists t ip ipNet,
     In t input /\ strings_Contains t "/" = true /\
     ParseCIDR t = inl (ip, ipNet) /\ To4 ip = []).
Proof.
  split; [exact closestVectors_in_bounds |].
  split; [exact countDifferentBits_in_bounds |].
  split; [apply MergeCIDRs_in_bounds |].
  rewrite MergeCIDRs_in_bounds.
  intros H. pose proof (MergeCIDRs_inv input maxIpNum) as Hinv.
  rewrite H in Hinv. destruct Hinv as (t & Hin & Ht & Hp).
  destruct (cidrToVector_panics_iff_aux t Hp) as (ip & ipNet & HP & H0).
  now exists t, ip, ipNet.
Qed.

Lemma MergeCIDRs_panics_only_in_parser_witness :
  Checked.MergeCIDRs ["lab"; "::1/128"; "10.0.0.0/24"]%string 0 = Panicked /\
  Checked.closestVectors example_collection
  = Returned (v_10_0_0_0_24, v_0_0_0_0_2, None, [v_192_168_0_0_24]) /\
  exists t ip ipNet,
    In t ["lab"; "::1/128"; "10.0.0.0/24"]%string /\
    strings_Contains t "/" = true /\
    ParseCIDR t = inl (ip, ipNet) /\ To4 ip = [].
Proof.
  assert (H : Checked.MergeCIDRs ["lab"; "::1/128"; "10.0.0.0/24"]%string 0
              = Panicked)
    by (vm_compute; reflexivity).
  split; [exact H |]. split; [vm_compute; reflexivity |].
  exact (proj2 (proj2 (proj2 (MergeCIDRs_panics_only_in_parser _ 0))) H).
Defined.
